(** * Image to PDF: the preview fitter, the working image, the image
      collection and the PDF export

    An embedding of [Image to PDF Conversion Tool.py] (classes [ImageFrame],
    [ImageOptions] and [ControlFrame]; the second source file is the same
    code with [ImageFrame] called [ConverterFrame]).

    The preview size is computed with Python floats and [int()], so the
    embedding uses the binary64 operations of [SpecFloat] (precision 53,
    [emax] 1024) and the development proves what it needs about their
    rounding.  Tk widgets are reduced to the state the properties talk
    about; PIL images are a size, a mode, symbolic pixel data and the
    further frames of a multi-frame file; the file system is what each
    path holds and which paths the operating system lets be written. *)

From Stdlib Require Import ZArith Lia Bool List Reals Lra Floats.SpecFloat.
From stdpp Require Import base option list strings gmap.
Open Scope Z_scope.

(** ** Python values and exceptions *)

(** The reasons for which the operating system refuses a file operation. *)
Inductive os_error :=
  | ENOENT    (* no such file or directory *)
  | EISDIR    (* is a directory *)
  | EACCES    (* permission denied *)
  | ENOSPC.   (* no space left on device *)

(** The exceptions the modelled code can raise.  [OSError ENOENT] is
    Python's [FileNotFoundError], [OSError EISDIR] its [IsADirectoryError]
    and [OSError EACCES] its [PermissionError]; the last two exceptions
    are PIL's. *)
Inductive exn :=
  | ZeroDivisionError
  | OverflowError
  | ValueError
  | IndexError
  | OSError (errno : os_error)
  | UnidentifiedImageError
  | DecompressionBombError.

Inductive result (A : Type) :=
  | Ok (a : A)
  | Raise (e : exn).
Arguments Ok {A} a.
Arguments Raise {A} e.

Definition bind {A B : Type} (r : result A) (k : A -> result B) : result B :=
  match r with
  | Ok a => k a
  | Raise e => Raise e
  end.

Notation "x <- r ;; k" := (bind r (fun x => k))
  (at level 100, r at next level, right associativity).

(** ** Python floats (IEEE 754 binary64) *)

Module PyFloat.

(** An [int] as an exact binary number, not yet rounded. *)
Definition exact_of_int (n : Z) : spec_float :=
  match n with
  | Z0 => S754_zero false
  | Z.pos p => S754_finite false p 0
  | Z.neg p => S754_finite true p 0
  end.

(** [a / b] on two ints: the correctly rounded quotient. *)
Definition int_truediv (a b : Z) : result spec_float :=
  if b =? 0 then Raise ZeroDivisionError
  else match SFdiv 53 1024 (exact_of_int a) (exact_of_int b) with
       | S754_infinity _ => Raise OverflowError
       | q => Ok q
       end.

(** [float(n)]: round to nearest, ties to even. *)
Definition int_to_float (n : Z) : result spec_float :=
  match binary_normalize 53 1024 n 0 false with
  | S754_infinity _ => Raise OverflowError
  | x => Ok x
  end.

(** [x / y] on two floats. *)
Definition float_truediv (x y : spec_float) : result spec_float :=
  match y with
  | S754_zero _ => Raise ZeroDivisionError
  | _ => Ok (SFdiv 53 1024 x y)
  end.

(** [a / y] with an int on the left: the int is converted first. *)
Definition int_div_float (a : Z) (y : spec_float) : result spec_float :=
  x <- int_to_float a ;; float_truediv x y.

(** [a * y] with an int on the left. *)
Definition int_mul_float (a : Z) (y : spec_float) : result spec_float :=
  x <- int_to_float a ;; Ok (SFmul 53 1024 x y).

(** [x > y]. *)
Definition float_gt (x y : spec_float) : bool := SFltb y x.

(** [int(x)]: truncation toward zero. *)
Definition int_of_float (x : spec_float) : result Z :=
  match x with
  | S754_zero _ => Ok 0
  | S754_finite s m e => Ok (cond_Zopp s (Z.shiftl (Z.pos m) e))
  | S754_infinity _ => Raise OverflowError
  | S754_nan => Raise ValueError
  end.

End PyFloat.
Import PyFloat.

(** ** PIL images and the files they come from *)

(** Pixel data is kept symbolic: the file it was decoded from and the PIL
    operations applied since. *)
Inductive pixels :=
  | FromFile (path : string)
  | Rotated90 (p : pixels)
  | Mirrored (p : pixels)
  | Resampled (size : Z * Z) (p : pixels).

(** One frame of an image: its size, its mode ([RGB], [L], [I;16], ...)
    and its pixels. *)
Record raster := { raster_size : Z * Z; raster_mode : string; raster_data : pixels }.

(** A PIL image object: the frame it shows, and the frames that follow it
    in a multi-frame file (the further pages of a TIFF, the further frames
    of an APNG or MPO).  An object stands at its first frame; an image
    made by a PIL operation has no further frames. *)
Record image := {
  size : Z * Z;
  mode : string;
  data : pixels;
  later_frames : list raster
}.

(** What a path of the file system holds. *)
Inductive file :=
  | ImageFile (im : image)         (* an image file that PIL identifies and decodes
                                      to [im], in a mode that Tk displays *)
  | PdfFile (pages : list raster)  (* a document written by the export *)
  | OtherFile                      (* any other readable file *)
  | Directory
  | Protected.                     (* a file this user may not read *)

(** The file system: what is at each path, and for each path the error, if
    any, with which the operating system refuses to have a file written
    there. *)
Record filesystem := {
  files : gmap string file;
  write_error : string -> option os_error
}.

Module PIL.

(** [PIL.Image.MAX_IMAGE_PIXELS], which is
    [int(1024 * 1024 * 1024 // 4 // 3)]. *)
Definition MAX_IMAGE_PIXELS : Z := 89478485.

(** [PIL.Image.open(path)]: the file is opened for reading, identified as
    an image, and refused when it has more than twice [MAX_IMAGE_PIXELS]
    pixels. *)
Definition open (fs : filesystem) (path : string) : result image :=
  match files fs !! path with
  | None => Raise (OSError ENOENT)
  | Some Directory => Raise (OSError EISDIR)
  | Some Protected => Raise (OSError EACCES)
  | Some (ImageFile im) =>
      if 2 * MAX_IMAGE_PIXELS <? Z.max 1 (fst (size im)) * Z.max 1 (snd (size im))
      then Raise DecompressionBombError
      else Ok im
  | Some (PdfFile _) | Some OtherFile => Raise UnidentifiedImageError
  end.

(** [im.copy()]: the frame shown, as an image of its own. *)
Definition copy (im : image) : image :=
  {| size := size im; mode := mode im; data := data im; later_frames := [] |}.

(** [im.rotate(90, expand=True)]: a transposition, width and height swap. *)
Definition rotate90_expand (im : image) : image :=
  {| size := (snd (size im), fst (size im)); mode := mode im;
     data := Rotated90 (data im); later_frames := [] |}.

(** [PIL.ImageOps.mirror(im)]: left-right mirror, same size. *)
Definition mirror (im : image) : image :=
  {| size := size im; mode := mode im; data := Mirrored (data im); later_frames := [] |}.

(** [im.resize(sz)]: a copy when the size is already [sz]; a requested
    width or height below 1 is refused with [ValueError]. *)
Definition resize (im : image) (sz : Z * Z) : result image :=
  if decide (size im = sz) then Ok (copy im)
  else if (fst sz <? 1) || (snd sz <? 1) then Raise ValueError
  else Ok {| size := sz; mode := mode im; data := Resampled sz (data im);
             later_frames := [] |}.

Definition current_frame (im : image) : raster :=
  {| raster_size := size im; raster_mode := mode im; raster_data := data im |}.

(** The frames that [save_all=True] goes through for one image. *)
Definition all_frames (im : image) : list raster :=
  current_frame im :: later_frames im.

(** The modes the PDF writer stores; any other one is refused with
    [ValueError] ("cannot save mode ..."). *)
Definition pdf_modes : list string := ["1"; "L"; "LA"; "P"; "RGB"; "RGBA"; "CMYK"].

Definition pdf_storable (r : raster) : bool :=
  existsb (String.eqb (raster_mode r)) pdf_modes.

Definition write (fs : filesystem) (path : string) (f : file) : filesystem :=
  {| files := <[path := f]> (files fs); write_error := write_error fs |}.

(** What a save leaves behind when it fails after the file was opened for
    writing: a file that was there before has lost its contents, a file
    that the save created is removed again. *)
Definition abandon (fs : filesystem) (path : string) : filesystem :=
  match files fs !! path with
  | Some _ => write fs path OtherFile
  | None => fs
  end.

(** [first.save(path, format="pdf", save_all=True, append_images=rest)]:
    the file is opened for writing, which the operating system may refuse,
    and every frame of [first] and then of [rest] becomes a page, which
    the PDF writer refuses for a frame whose mode it does not store.  On
    success the document replaces whatever was at [path]. *)
Definition save_pdf (first : image) (path : string) (append_images : list image)
    (fs : filesystem) : result unit * filesystem :=
  match write_error fs path with
  | Some ENOSPC => (Raise (OSError ENOSPC), abandon fs path)
  | Some e => (Raise (OSError e), fs)
  | None =>
      let pages := flat_map all_frames (first :: append_images) in
      if forallb pdf_storable pages then (Ok tt, write fs path (PdfFile pages))
      else (Raise ValueError, abandon fs path)
  end.

End PIL.

(** ** [ImageFrame.resize_original_image]: the size computation *)

Inductive axis := WidthAxis | HeightAxis.

(** [if length_distance > height_distance: ... else: ...] *)
Definition constraining (length_distance height_distance : spec_float) : axis :=
  if float_gt length_distance height_distance then WidthAxis else HeightAxis.

(** The body of that [if]. *)
Definition width_constrained (length : Z) (length_distance aspect_ratio : spec_float)
    : result (Z * Z) :=
  length_resize <- (x <- int_div_float length length_distance ;; int_of_float x) ;;
  height_resize <- (x <- int_div_float length_resize aspect_ratio ;; int_of_float x) ;;
  Ok (length_resize, height_resize).

(** The body of its [else]. *)
Definition height_constrained (height : Z) (height_distance aspect_ratio : spec_float)
    : result (Z * Z) :=
  height_resize <- (x <- int_div_float height height_distance ;; int_of_float x) ;;
  length_resize <- (x <- int_mul_float height_resize aspect_ratio ;; int_of_float x) ;;
  Ok (length_resize, height_resize).

(** What [resize_original_image] does with the original image. *)
Inductive fit :=
  | Unchanged                 (* resized_image = original_image; return *)
  | Resize (sz : Z * Z).      (* resized_image = original_image.resize(sz) *)

(** Lines 82 to 113 up to the call of [resize]: the landscape and the
    portrait branch are kept as the source has them. *)
Definition resize_dimensions (length height : Z) : result fit :=
  aspect_ratio <- int_truediv length height ;;
  d <- (if length >? height then
          if (length <? 800) && (height <? 600) then Ok None
          else
            length_distance <- int_truediv length 800 ;;
            height_distance <- int_truediv height 600 ;;
            Ok (Some (length_distance, height_distance))
        else
          if (length <? 800) && (height <? 600) then Ok None
          else
            length_distance <- int_truediv length 800 ;;
            height_distance <- int_truediv height 600 ;;
            Ok (Some (length_distance, height_distance))) ;;
  match d with
  | None => Ok Unchanged
  | Some (length_distance, height_distance) =>
      sz <- match constraining length_distance height_distance with
            | WidthAxis => width_constrained length length_distance aspect_ratio
            | HeightAxis => height_constrained height height_distance aspect_ratio
            end ;;
      Ok (Resize sz)
  end.

(** The dimensions of the preview that the fitter asks for. *)
Definition fitted_size (original : Z * Z) : result (Z * Z) :=
  f <- resize_dimensions (fst original) (snd original) ;;
  Ok (match f with Unchanged => original | Resize sz => sz end).

(** ** [ImageFrame] *)

Record ImageFrame := {
  original_image : image;
  resized_image : option image;
  display_image : option image
}.

Definition set_original (self : ImageFrame) (im : image) : ImageFrame :=
  {| original_image := im;
     resized_image := resized_image self;
     display_image := display_image self |}.

Definition set_resized (self : ImageFrame) (im : image) : ImageFrame :=
  {| original_image := original_image self;
     resized_image := Some im;
     display_image := display_image self |}.

Definition set_display (self : ImageFrame) (im : option image) : ImageFrame :=
  {| original_image := original_image self;
     resized_image := resized_image self;
     display_image := im |}.

(** A method gives its outcome and the object afterwards: what was assigned
    before an exception stays assigned. *)
Definition resize_original_image (self : ImageFrame) : result unit * ImageFrame :=
  let length := fst (size (original_image self)) in
  let height := snd (size (original_image self)) in
  match resize_dimensions length height with
  | Raise e => (Raise e, self)
  | Ok Unchanged => (Ok tt, set_resized self (original_image self))
  | Ok (Resize sz) =>
      match PIL.resize (original_image self) sz with
      | Raise e => (Raise e, self)
      | Ok im => (Ok tt, set_resized self im)
      end
  end.

Definition apply_image_edit (self : ImageFrame) : result unit * ImageFrame :=
  match resize_original_image self with
  | (Raise e, self') => (Raise e, self')
  | (Ok _, self') => (Ok tt, set_display self' (resized_image self'))
  end.

Definition rotate (self : ImageFrame) : result unit * ImageFrame :=
  apply_image_edit (set_original self (PIL.rotate90_expand (original_image self))).

Definition flip (self : ImageFrame) : result unit * ImageFrame :=
  apply_image_edit (set_original self (PIL.mirror (original_image self))).

(** [ImageFrame(container, image)] *)
Definition ImageFrame_init (disk : filesystem) (path : string) : result ImageFrame :=
  original <- PIL.open disk path ;;
  match resize_original_image
          {| original_image := original; resized_image := None; display_image := None |} with
  | (Raise e, _) => Raise e
  | (Ok _, self) => Ok (set_display self (resized_image self))
  end.

(** ** [ControlFrame] *)

Record ControlFrame := {
  selected_value : Z;        (* the IntVar shared by the radio buttons *)
  buttons : list Z;          (* the value of each radio button created *)
  frames : list ImageFrame;
  save_enabled : bool;       (* whether the Save-as-PDF button can be pressed *)
  raised : option nat        (* index of the frame last raised by tkraise *)
}.

(** [ControlFrame(root)]: the save button starts [DISABLED]. *)
Definition ControlFrame_init : ControlFrame :=
  {| selected_value := 0; buttons := []; frames := [];
     save_enabled := false; raised := None |}.

(** [l[i]], negative indices counting from the end. *)
Definition py_index {A : Type} (l : list A) (i : Z) : result (nat * A) :=
  let n := Z.of_nat (length l) in
  let j := if i <? 0 then i + n else i in
  if j <? 0 then Raise IndexError
  else match l !! Z.to_nat j with
       | Some a => Ok (Z.to_nat j, a)
       | None => Raise IndexError
       end.

Definition change_frame (self : ControlFrame) : result unit * ControlFrame :=
  match py_index (frames self) (selected_value self) with
  | Raise e => (Raise e, self)
  | Ok (i, _) =>
      (Ok tt, {| selected_value := selected_value self; buttons := buttons self;
                 frames := frames self; save_enabled := save_enabled self;
                 raised := Some i |})
  end.

(** [filename] is what the open-file dialog returned. *)
Definition add_new_image (disk : filesystem) (filename : string)
    (self : ControlFrame) : result unit * ControlFrame :=
  match ImageFrame_init disk filename with
  | Raise e => (Raise e, self)
  | Ok new_frame =>
      let self1 :=
        {| selected_value := selected_value self;
           buttons := buttons self ++ [Z.of_nat (length (buttons self))];
           frames := frames self ++ [new_frame];
           save_enabled := save_enabled self;
           raised := raised self |} in
      match change_frame self1 with
      | (Raise e, self2) => (Raise e, self2)
      | (Ok _, self2) =>
          (Ok tt, {| selected_value := selected_value self2; buttons := buttons self2;
                     frames := frames self2; save_enabled := true;
                     raised := raised self2 |})
      end
  end.

(** [directory] is what the save-file dialog returned, empty on cancel;
    the method gives its outcome and the file system afterwards. *)
Definition save_as_pdf (directory : string) (self : ControlFrame)
    (fs : filesystem) : result unit * filesystem :=
  if decide (directory = EmptyString) then (Ok tt, fs)
  else
    let images := map original_image (frames self) in
    match py_index images 0 with
    | Raise e => (Raise e, fs)
    | Ok (_, first) => PIL.save_pdf first directory (drop 1 images) fs
    end.

(** Pressing radio button number [i]: Tk stores the button's value in the
    variable and runs the command. *)
Definition click_radio (i : nat) (self : ControlFrame) : result unit * ControlFrame :=
  match buttons self !! i with
  | None => (Ok tt, self)
  | Some v =>
      change_frame {| selected_value := v; buttons := buttons self;
                      frames := frames self; save_enabled := save_enabled self;
                      raised := raised self |}
  end.

(** [ImageOptions.rotate] and [ImageOptions.flip] of frame [i]: the method
    runs on the frame object that the list holds. *)
Definition edit_frame (op : ImageFrame -> result unit * ImageFrame) (i : nat)
    (self : ControlFrame) : result unit * ControlFrame :=
  match frames self !! i with
  | None => (Ok tt, self)
  | Some f =>
      (fst (op f),
       {| selected_value := selected_value self; buttons := buttons self;
          frames := <[i := snd (op f)]> (frames self);
          save_enabled := save_enabled self; raised := raised self |})
  end.

(** The states of a session. *)
Inductive reachable : ControlFrame -> Prop :=
  | reachable_init : reachable ControlFrame_init
  | reachable_add disk filename self :
      reachable self -> reachable (snd (add_new_image disk filename self))
  | reachable_click i self :
      reachable self -> reachable (snd (click_radio i self))
  | reachable_rotate i self :
      reachable self -> reachable (snd (edit_frame rotate i self))
  | reachable_flip i self :
      reachable self -> reachable (snd (edit_frame flip i self)).

(** ** The fitter as the specification words it *)

(** Items 3 to 5 of the specified fitter, in the specification's real
    numbers: the two ratios against 800 and 600 by real-number division,
    the width as constraining axis when its ratio is the larger one, and
    the two formulas with [floor]. *)
Definition reference_scaling (width height : Z) : Z * Z :=
  let aspect_ratio := (IZR width / IZR height)%R in
  let width_ratio := (IZR width / 800)%R in
  let height_ratio := (IZR height / 600)%R in
  if Rlt_dec height_ratio width_ratio then
    let fitted_width := Zfloor (IZR width / width_ratio) in
    let fitted_height := Zfloor (IZR fitted_width / aspect_ratio) in
    (fitted_width, fitted_height)
  else
    let fitted_height := Zfloor (IZR height / height_ratio) in
    let fitted_width := Zfloor (IZR fitted_height * aspect_ratio) in
    (fitted_width, fitted_height).

(** ** Predicates of the statements *)

(** Image dimensions as PIL holds them: positive C ints. *)
Definition valid_size (sz : Z * Z) : Prop :=
  0 < fst sz < 2 ^ 31 /\ 0 < snd sz < 2 ^ 31.

(** The preview keeps the aspect ratio up to one pixel: one of its two
    dimensions is within a pixel of what the other one and the canonical
    ratio give. *)
Definition aspect_within_one_pixel (canonical preview : Z * Z) : Prop :=
  Z.abs (fst preview * snd canonical - snd preview * fst canonical)
    <= Z.max (fst canonical) (snd canonical).

(** [preview] is the canonical image itself, a copy of it, or a resampling
    of its pixels. *)
Definition made_from (original preview : image) : Prop :=
  preview = original \/
  preview = PIL.copy original \/
  preview = {| size := size preview; mode := mode original;
               data := Resampled (size preview) (data original);
               later_frames := [] |}.

Definition preview_consistent (f : ImageFrame) : Prop :=
  exists p,
    resized_image f = Some p /\ display_image f = Some p /\
    made_from (original_image f) p /\
    fitted_size (size (original_image f)) = Ok (size p) /\
    aspect_within_one_pixel (size (original_image f)) (size p).

(** A Working Image as an operation leaves it when it returns. *)
Inductive returned : ImageFrame -> Prop :=
  | returned_create disk path f :
      ImageFrame_init disk path = Ok f ->
      valid_size (size (original_image f)) -> returned f
  | returned_rotate f f' :
      valid_size (size (original_image f)) ->
      rotate f = (Ok tt, f') -> returned f'
  | returned_flip f f' :
      valid_size (size (original_image f)) ->
      flip f = (Ok tt, f') -> returned f'.

Definition rotate_times (n : nat) (f : ImageFrame) : ImageFrame :=
  Nat.iter n (fun g => snd (rotate g)) f.



(** ** Sample data *)

(** The image that [open] gives for a single-frame RGB file. *)
Definition rgb_image (sz : Z * Z) (path : string) : image :=
  {| size := sz; mode := "RGB"; data := FromFile path; later_frames := [] |}.

(** A file system that lets every path be written. *)
Definition disk_of (fl : gmap string file) : filesystem :=
  {| files := fl; write_error := fun _ => None |}.

(** Images A (500x300), B (300x500) and C (800x800). *)
Definition disk_ABC : filesystem :=
  disk_of
    (<["a.png" := ImageFile (rgb_image (500, 300) "a.png")]>
    (<["b.png" := ImageFile (rgb_image (300, 500) "b.png")]>
    (<["c.png" := ImageFile (rgb_image (800, 800) "c.png")]> empty))).

Definition session_A : ControlFrame :=
  snd (add_new_image disk_ABC "a.png" ControlFrame_init).

Definition session_ABC : ControlFrame :=
  snd (add_new_image disk_ABC "c.png"
    (snd (add_new_image disk_ABC "b.png" session_A))).

Definition photo : ImageFrame :=
  {| original_image := rgb_image (1600, 900) "photo.jpg";
     resized_image := None; display_image := None |}.

(** A 700 x 1 strip, and the session in which it was added and its rotate
    button pressed. *)
Definition thin : image := rgb_image (700, 1) "thin.png".

Definition disk_thin : filesystem :=
  disk_of (<["thin.png" := ImageFile thin]> empty).

Definition session_thin : ControlFrame :=
  snd (add_new_image disk_thin "thin.png" ControlFrame_init).

Definition session_thin_rotated : ControlFrame :=
  snd (edit_frame rotate 0 session_thin).





(** The files of [disk_ABC], with no directory [reports]. *)
Definition disk_no_reports : filesystem :=
  {| files := files disk_ABC;
     write_error := fun path =>
       if String.eqb path "reports/out.pdf" then Some ENOENT else None |}.

(** ** Real values of binary floats *)

Definition bpow (e : Z) : R := powerRZ 2 e.

Definition F2R (m e : Z) : R := (IZR m * bpow e)%R.

Definition value (f : spec_float) : R :=
  match f with
  | S754_finite s m e => F2R (cond_Zopp s (Z.pos m)) e
  | _ => 0%R
  end.

Definition Rcmp (c : comparison) (a b : R) : Prop :=
  match c with
  | Lt => (a < b)%R
  | Eq => a = b
  | Gt => (b < a)%R
  end.

(** [x] lies at location [l] of the interval from [m * 2^e] to
    [(m + 1) * 2^e]. *)
Definition inbetween (m e : Z) (l : location) (x : R) : Prop :=
  match l with
  | loc_Exact => x = F2R m e
  | loc_Inexact c =>
      (F2R m e < x < F2R (m + 1) e)%R /\ Rcmp c x (F2R m e + bpow e / 2)%R
  end.

(** [m * 2^e] is [x] rounded to 53 bits, to nearest with ties to even;
    [e0] is the exponent of the 53-bit number just below [x]. *)
Definition rne_at (x : R) (m e e0 : Z) : Prop :=
  2 ^ 52 <= m < 2 ^ 53 /\ e0 <= e <= e0 + 1 /\
  exists (m0 : Z) (b : bool),
    2 ^ 52 <= m0 < 2 ^ 53 /\
    (F2R m0 e0 <= x < F2R (m0 + 1) e0)%R /\
    F2R m e = F2R (m0 + Z.b2z b) e0 /\
    (if b then (F2R m0 e0 + bpow e0 / 2 <= x)%R
     else (x <= F2R m0 e0 + bpow e0 / 2)%R) /\
    (x = (F2R m0 e0 + bpow e0 / 2)%R -> Z.even (m0 + Z.b2z b) = true).

(** [f] is the positive binary64 number nearest to the real [x]. *)
Definition rounds_to (x : R) (f : spec_float) : Prop :=
  exists m e e0, f = S754_finite false m e /\ rne_at x (Z.pos m) e e0.

(** The exponent is far from both ends of the range. *)
Definition moderate (f : spec_float) : Prop :=
  match f with
  | S754_finite _ _ e => -400 <= e <= 400
  | _ => False
  end.

(** [v] is within relative error [2^-53] of [x]. *)
Definition close (v x : R) : Prop :=
  (0 < x /\ 9007199254740992 * (v - x) <= x /\ 9007199254740992 * (x - v) <= x)%R.

(** ** Predicates of the further properties *)

(** Neither side is 599 times the other or more: no dimension of the
    preview, of the image or of its rotation, is truncated to zero. *)
Definition moderate_ratio (sz : Z * Z) : Prop :=
  fst sz < 599 * snd sz /\ snd sz < 599 * fst sz.

(** What every state of a session satisfies: button [i] carries the value
    [i]; the selection is an index of the collection; once there is a
    frame, the frame last raised is the selected one and the save button
    is enabled. *)
Definition session_invariant (self : ControlFrame) : Prop :=
  buttons self = map Z.of_nat (seq 0 (length (frames self))) /\
  0 <= selected_value self /\
  (frames self <> [] ->
     selected_value self < Z.of_nat (length (frames self)) /\
     raised self = Some (Z.to_nat (selected_value self)) /\
     save_enabled self = true) /\
  (frames self = [] ->
     selected_value self = 0 /\ raised self = None /\ save_enabled self = false).

Ltac size_lia := change (2 ^ 31) with 2147483648 in *; lia.

(** * Rounding of binary64 operations *)

(** ** Powers of two and numbers of digits *)

Lemma bpow_pos e : (0 < bpow e)%R.
Proof. apply powerRZ_lt; lra. Qed.

Lemma bpow_plus a b : bpow (a + b) = (bpow a * bpow b)%R.
Proof. apply powerRZ_add; lra. Qed.

Lemma bpow_succ e : bpow (e + 1) = (2 * bpow e)%R.
Proof. rewrite bpow_plus. unfold bpow at 2. simpl. lra. Qed.

Lemma bpow_IZR e : 0 <= e -> bpow e = IZR (2 ^ e).
Proof.
  intros He. destruct e as [|p|p]; [reflexivity| |lia].
  unfold bpow. rewrite <- Zpower_pos_powerRZ. reflexivity.
Qed.

Lemma bpow_le a b : a <= b -> (bpow a <= bpow b)%R.
Proof.
  intros H. replace b with (a + (b - a)) by lia. rewrite bpow_plus.
  rewrite (bpow_IZR (b - a)) by lia.
  assert (Hp : 0 < 2 ^ (b - a)) by (apply Z.pow_pos_nonneg; lia).
  assert (H0 : 1 <= 2 ^ (b - a)) by lia.
  apply IZR_le in H0. pose proof (bpow_pos a). nra.
Qed.

Lemma bpow_lt a b : a < b -> (bpow a < bpow b)%R.
Proof.
  intros H. pose proof (bpow_le (a + 1) b ltac:(lia)) as H1.
  rewrite bpow_succ in H1. pose proof (bpow_pos a). lra.
Qed.

Lemma bpow_lt_inv a b : (bpow a < bpow b)%R -> a < b.
Proof.
  intros H. destruct (Z_lt_le_dec a b) as [|Hle]; [assumption|].
  apply bpow_le in Hle. lra.
Qed.

Lemma F2R_succ_exp m e : F2R (2 * m) e = F2R m (e + 1).
Proof. unfold F2R. rewrite bpow_succ, mult_IZR. lra. Qed.

Lemma digits2_bounds p :
  2 ^ (Z.pos (digits2_pos p) - 1) <= Z.pos p < 2 ^ Z.pos (digits2_pos p).
Proof.
  induction p as [p IH|p IH|]; simpl digits2_pos.
  - rewrite Pos2Z.inj_succ. replace (Z.succ (Z.pos (digits2_pos p)) - 1) with (Z.succ (Z.pos (digits2_pos p) - 1)) by lia.
    rewrite !Z.pow_succ_r by lia. lia.
  - rewrite Pos2Z.inj_succ. replace (Z.succ (Z.pos (digits2_pos p)) - 1) with (Z.succ (Z.pos (digits2_pos p) - 1)) by lia.
    rewrite !Z.pow_succ_r by lia. lia.
  - simpl. lia.
Qed.

Lemma Zdigits2_bounds m : 0 < m -> 2 ^ (Zdigits2 m - 1) <= m < 2 ^ Zdigits2 m.
Proof. destruct m as [|p|p]; try lia. intros _. apply digits2_bounds. Qed.

Lemma Zdigits2_pos m : 0 < m -> 0 < Zdigits2 m.
Proof. destruct m; simpl; lia. Qed.

Lemma Zdigits2_unique m d : 2 ^ (d - 1) <= m < 2 ^ d -> 0 < d -> Zdigits2 m = d.
Proof.
  intros [Hl Hu] Hd.
  assert (Hm : 0 < m) by (assert (0 < 2 ^ (d - 1)) by (apply Z.pow_pos_nonneg; lia); lia).
  pose proof (Zdigits2_bounds m Hm) as [Hl' Hu']. pose proof (Zdigits2_pos m Hm).
  destruct (Z.lt_trichotomy (Zdigits2 m) d) as [Hlt|[Heq|Hgt]]; [|assumption|].
  - assert (2 ^ Zdigits2 m <= 2 ^ (d - 1)) by (apply Z.pow_le_mono_r; lia). lia.
  - assert (2 ^ d <= 2 ^ (Zdigits2 m - 1)) by (apply Z.pow_le_mono_r; lia). lia.
Qed.

(** ** Shifting right keeps the location *)

Lemma shr_1_div2 m r s :
  0 <= m -> shr_1 (Build_shr_record m r s) = Build_shr_record (Z.div2 m) (Z.odd m) (r || s).
Proof. destruct m as [|[p|p|]|p]; try lia; reflexivity. Qed.

(** One right shift keeps the described real number. *)
Lemma shr_1_inbetween mrs e x :
  0 <= shr_m mrs ->
  inbetween (shr_m mrs) e (loc_of_shr_record mrs) x ->
  0 <= shr_m (shr_1 mrs) /\
  inbetween (shr_m (shr_1 mrs)) (e + 1) (loc_of_shr_record (shr_1 mrs)) x.
Proof.
  destruct mrs as [m r s]. cbn [shr_m]. intros Hm H.
  rewrite shr_1_div2 by assumption. cbn [shr_m].
  pose proof (bpow_pos e) as Hb.
  pose proof (Z.div2_odd m) as Hd.
  assert (Hm' : 0 <= Z.div2 m) by (apply Z.div2_nonneg; assumption).
  split; [assumption|].
  revert H Hd. generalize (Z.div2 m) as k. generalize (Z.odd m) as b.
  intros b k H Hd. subst m.
  unfold inbetween, loc_of_shr_record, F2R, Rcmp in *.
  rewrite bpow_succ.
  destruct b, r, s; cbn [orb Z.b2z] in *;
    rewrite ?plus_IZR, ?mult_IZR in H; repeat split; rewrite ?plus_IZR; try lra.
Qed.

Lemma iter_shr_1_inbetween p : forall mrs e x,
  0 <= shr_m mrs ->
  inbetween (shr_m mrs) e (loc_of_shr_record mrs) x ->
  0 <= shr_m (SpecFloat.iter_pos shr_1 p mrs) /\
  inbetween (shr_m (SpecFloat.iter_pos shr_1 p mrs)) (e + Z.pos p)
    (loc_of_shr_record (SpecFloat.iter_pos shr_1 p mrs)) x.
Proof.
  induction p as [p IH|p IH|]; intros mrs e x Hm H; cbn [SpecFloat.iter_pos].
  - destruct (shr_1_inbetween _ _ _ Hm H) as [Hm1 H1].
    destruct (IH _ _ _ Hm1 H1) as [Hm2 H2].
    destruct (IH _ _ _ Hm2 H2) as [Hm3 H3].
    split; [assumption|].
    replace (e + Z.pos p~1) with (e + 1 + Z.pos p + Z.pos p) by lia. assumption.
  - destruct (IH _ _ _ Hm H) as [Hm2 H2].
    destruct (IH _ _ _ Hm2 H2) as [Hm3 H3].
    split; [assumption|].
    replace (e + Z.pos p~0) with (e + Z.pos p + Z.pos p) by lia. assumption.
  - apply shr_1_inbetween; assumption.
Qed.

Lemma shr_inbetween m l e n x :
  0 <= m -> 0 <= n -> inbetween m e l x ->
  0 <= shr_m (fst (shr (shr_record_of_loc m l) e n)) /\
  snd (shr (shr_record_of_loc m l) e n) = e + n /\
  inbetween (shr_m (fst (shr (shr_record_of_loc m l) e n))) (e + n)
    (loc_of_shr_record (fst (shr (shr_record_of_loc m l) e n))) x.
Proof.
  intros Hm Hn H.
  assert (Hm0 : shr_m (shr_record_of_loc m l) = m) by (destruct l as [|[]]; reflexivity).
  assert (Hl0 : loc_of_shr_record (shr_record_of_loc m l) = l) by (destruct l as [|[]]; reflexivity).
  destruct n as [|p|p]; [| |lia]; cbn [shr fst snd].
  - rewrite Z.add_0_r, Hm0, Hl0. auto.
  - destruct (iter_shr_1_inbetween p (shr_record_of_loc m l) e x) as [H1 H2].
    + rewrite Hm0; assumption.
    + rewrite Hm0, Hl0; assumption.
    + auto.
Qed.

Lemma inbetween_bracket m e l x :
  inbetween m e l x -> (F2R m e <= x < F2R (m + 1) e)%R.
Proof.
  destruct l; simpl; intros H.
  - subst x. unfold F2R. rewrite plus_IZR. pose proof (bpow_pos e). nra.
  - lra.
Qed.

Lemma fexp_normal k : -1074 <= k - 53 -> fexp 53 1024 k = k - 53.
Proof. unfold fexp, emin. lia. Qed.

Lemma F2R_bpow m e k : 0 <= k -> F2R (m * 2 ^ k) e = F2R m (e + k).
Proof.
  intros Hk. unfold F2R. rewrite mult_IZR, bpow_plus, (bpow_IZR k) by assumption. lra.
Qed.

Lemma F2R_lt_inv m1 m2 e : (F2R m1 e < F2R m2 e)%R -> m1 < m2.
Proof.
  unfold F2R. intros H. apply lt_IZR. pose proof (bpow_pos e). nra.
Qed.

Lemma F2R_le_inv m1 m2 e : (F2R m1 e <= F2R m2 e)%R -> m1 <= m2.
Proof.
  unfold F2R. intros H. apply le_IZR. pose proof (bpow_pos e). nra.
Qed.

Lemma F2R_pow2 k e : 0 <= k -> F2R (2 ^ k) e = bpow (k + e).
Proof. intros. unfold F2R. rewrite bpow_plus, (bpow_IZR k) by assumption. reflexivity. Qed.

Lemma F2R_le m1 m2 e : m1 <= m2 -> (F2R m1 e <= F2R m2 e)%R.
Proof. intros H. apply IZR_le in H. unfold F2R. pose proof (bpow_pos e). nra. Qed.

(** ** [binary_round_aux] rounds to nearest, ties to even *)

Lemma round_nearest_even_spec m e l x :
  inbetween m e l x ->
  exists b : bool,
    round_nearest_even m l = m + Z.b2z b /\
    (if b then (F2R m e + bpow e / 2 <= x)%R else (x <= F2R m e + bpow e / 2)%R) /\
    (x = (F2R m e + bpow e / 2)%R -> Z.even (m + Z.b2z b) = true).
Proof.
  pose proof (bpow_pos e) as Hb.
  destruct l as [|[]]; cbn [inbetween round_nearest_even Rcmp]; intros H.
  - exists false. cbn [Z.b2z]. rewrite Z.add_0_r. repeat split; try lra.
  - destruct (Z.even m) eqn:Hev.
    + exists false. cbn [Z.b2z]. rewrite Z.add_0_r. repeat split; try lra. auto.
    + exists true. cbn [Z.b2z]. repeat split; try lra.
      intros _. rewrite Z.even_add, Hev. reflexivity.
  - exists false. cbn [Z.b2z]. rewrite Z.add_0_r. repeat split; try lra.
  - exists true. cbn [Z.b2z]. repeat split; try lra.
Qed.

Lemma binary_round_aux_rne s mx ex lx x :
  2 ^ 52 <= mx -> inbetween mx ex lx x ->
  -1074 <= Zdigits2 mx + ex - 53 -> Zdigits2 mx + ex <= 1023 ->
  exists m e, binary_round_aux 53 1024 s mx ex lx = S754_finite s m e /\
              rne_at x (Z.pos m) e (Zdigits2 mx + ex - 53).
Proof.
  intros Hmx Hin Hlo Hhi.
  assert (Hmx0 : 0 < mx) by lia.
  pose proof (Zdigits2_bounds mx Hmx0) as [Hdl Hdu].
  unfold binary_round_aux, shr_fexp.
  revert Hlo Hhi Hdl Hdu. generalize (Zdigits2 mx) as d. intros d Hlo Hhi Hdl Hdu.
  assert (Hd : 53 <= d).
  { destruct (Z_lt_le_dec d 53); [|lia].
    assert (2 ^ d <= 2 ^ 52) by (apply Z.pow_le_mono_r; lia). lia. }
  rewrite fexp_normal by lia.
  replace (d + ex - 53 - ex) with (d - 53) by lia.
  replace (d + ex - 53) with (ex + (d - 53)) by lia.
  destruct (shr_inbetween mx lx ex (d - 53) x) as (Hm1 & He1 & Hin1);
    [lia|lia|assumption|].
  destruct (shr (shr_record_of_loc mx lx) ex (d - 53)) as [mrs1 e1] eqn:Hshr.
  cbn [fst snd] in *. subst e1.
  remember (ex + (d - 53)) as e0 eqn:He0.
  revert Hm1 Hin1. generalize (shr_m mrs1) (loc_of_shr_record mrs1).
  intros m1 l1 Hm1 Hin1.
  pose proof (inbetween_bracket _ _ _ _ Hin) as [Hx1 Hx2].
  pose proof (inbetween_bracket _ _ _ _ Hin1) as [Hy1 Hy2].
  assert (Hp1 : 2 ^ 52 * 2 ^ (d - 53) = 2 ^ (d - 1))
    by (rewrite <- Z.pow_add_r by lia; f_equal; lia).
  assert (Hp2 : 2 ^ 53 * 2 ^ (d - 53) = 2 ^ d)
    by (rewrite <- Z.pow_add_r by lia; f_equal; lia).
  assert (Hm1b : 2 ^ 52 <= m1 < 2 ^ 53).
  { split.
    - assert (H : (F2R (2 ^ 52) e0 < F2R (m1 + 1) e0)%R).
      { eapply Rle_lt_trans; [|exact Hy2]. eapply Rle_trans; [|exact Hx1].
        rewrite He0, <- F2R_bpow by lia. apply F2R_le. lia. }
      apply F2R_lt_inv in H. lia.
    - apply (F2R_lt_inv _ _ e0).
      eapply Rle_lt_trans; [exact Hy1|]. eapply Rlt_le_trans; [exact Hx2|].
      rewrite He0, <- F2R_bpow by lia. apply F2R_le. lia. }
  destruct (round_nearest_even_spec _ _ _ _ Hin1) as (b & Hr & Hb1 & Hb2).
  rewrite Hr.
  destruct (Z.eq_dec (m1 + Z.b2z b) (2 ^ 53)) as [Hov|Hnov].
  - rewrite Hov.
    change (Zdigits2 (2 ^ 53)) with 54.
    rewrite fexp_normal by lia.
    replace (54 + e0 - 53 - e0) with 1 by lia.
    change (shr (shr_record_of_loc (2 ^ 53) loc_Exact) e0 1)
      with (Build_shr_record (2 ^ 52) false false, e0 + 1).
    cbn [shr_m]. change (2 ^ 52) with (Z.pos (2 ^ 52)%positive) at 1.
    cbv iota beta.
    replace (e0 + 1 <=? 1024 - 53) with true by (symmetry; apply Z.leb_le; lia).
    eexists _, _. split; [reflexivity|].
    split; [change (Z.pos (2 ^ 52)%positive) with (2 ^ 52); lia|].
    split; [lia|].
    exists m1, b. repeat split; try lia; try assumption.
    rewrite Hov. change (Z.pos (2 ^ 52)%positive) with (2 ^ 52).
    change (2 ^ 53) with (2 * 2 ^ 52). apply eq_sym, F2R_succ_exp.
  - assert (Hb3 : Z.b2z b <= 1) by (destruct b; simpl; lia).
    assert (Hb4 : 0 <= Z.b2z b) by (destruct b; simpl; lia).
    rewrite (Zdigits2_unique (m1 + Z.b2z b) 53) by (change (53 - 1) with 52; lia).
    rewrite fexp_normal by lia.
    replace (53 + e0 - 53 - e0) with 0 by lia.
    cbn [shr shr_record_of_loc shr_m].
    destruct (m1 + Z.b2z b) as [|p|p] eqn:Hm2; [lia| |lia].
    replace (e0 <=? 1024 - 53) with true by (symmetry; apply Z.leb_le; lia).
    eexists _, _. split; [reflexivity|].
    split; [lia|]. split; [lia|].
    exists m1, b. rewrite Hm2. repeat split; try lia; try assumption.
Qed.

(** ** Division and multiplication *)

Lemma new_location_spec m2 r :
  0 < m2 -> 0 <= r < m2 ->
  new_location m2 r = if r =? 0 then loc_Exact else loc_Inexact (2 * r ?= m2).
Proof.
  intros Hm Hr. unfold new_location, new_location_even, new_location_odd.
  destruct (Z.even m2) eqn:Hev; [reflexivity|].
  destruct (r =? 0); [reflexivity|]. f_equal.
  assert (Hodd : Z.odd m2 = true) by (rewrite <- Z.negb_even, Hev; reflexivity).
  apply Z.odd_spec in Hodd. destruct Hodd as [k Hk].
  destruct (Z.compare_spec (2 * r + 1) m2); symmetry;
    [apply Z.compare_lt_iff|apply Z.compare_lt_iff|apply Z.compare_gt_iff]; lia.
Qed.

Lemma F2R_bounds m e :
  0 < m -> (bpow (Zdigits2 m - 1 + e) <= F2R m e < bpow (Zdigits2 m + e))%R.
Proof.
  intros Hm. pose proof (Zdigits2_bounds m Hm) as [Hl Hu].
  pose proof (Zdigits2_pos m Hm) as Hd.
  rewrite <- !F2R_pow2 by lia. split.
  - apply F2R_le; assumption.
  - unfold F2R. apply IZR_lt in Hu. pose proof (bpow_pos e). nra.
Qed.

Lemma SFdiv_core_binary_spec m1 e1 m2 e2 :
  0 < m1 -> 0 < m2 ->
  -1074 <= Zdigits2 m1 + e1 - (Zdigits2 m2 + e2) - 53 ->
  exists q e' l,
    SFdiv_core_binary 53 1024 m1 e1 m2 e2 = (q, e', l) /\
    inbetween q e' l (F2R m1 e1 / F2R m2 e2)%R /\
    2 ^ 52 <= q /\
    Zdigits2 m1 + e1 - (Zdigits2 m2 + e2) <= Zdigits2 q + e'
      <= Zdigits2 m1 + e1 - (Zdigits2 m2 + e2) + 1.
Proof.
  intros Hm1 Hm2 Hlo.
  pose proof (F2R_bounds m1 e1 Hm1) as [HX1 HX2].
  pose proof (F2R_bounds m2 e2 Hm2) as [HY1 HY2].
  unfold SFdiv_core_binary.
  revert Hlo HX1 HX2 HY1 HY2.
  generalize (Zdigits2 m1) as d1. generalize (Zdigits2 m2) as d2.
  intros d2 d1 Hlo HX1 HX2 HY1 HY2.
  rewrite fexp_normal by lia.
  set (e' := Z.min (d1 + e1 - (d2 + e2) - 53) (e1 - e2)).
  set (s := e1 - e2 - e').
  assert (Hs : 0 <= s) by (unfold s, e'; lia).
  assert (Hm' : match s with Z.pos _ => Z.shiftl m1 s | 0 => m1 | Z.neg _ => 0 end
                = m1 * 2 ^ s).
  { destruct s as [|p|p] eqn:Hsp; [change (2 ^ 0) with 1; lia| |lia].
    apply Z.shiftl_mul_pow2. lia. }
  rewrite Hm'.
  pose proof (Z_div_mod (m1 * 2 ^ s) m2 ltac:(lia)) as Hdm.
  destruct (Z.div_eucl (m1 * 2 ^ s) m2) as [q r]. destruct Hdm as [Hqr Hr].
  exists q, e', (new_location m2 r). split; [reflexivity|].
  set (x := (F2R m1 e1 / F2R m2 e2)%R).
  pose proof (bpow_pos e') as Hbe. pose proof (bpow_pos e2) as Hb2.
  assert (HY0 : (0 < F2R m2 e2)%R)
    by (eapply Rlt_le_trans; [apply bpow_pos|exact HY1]).
  assert (Hkey : (x * IZR m2 = IZR (m2 * q + r) * bpow e')%R).
  { rewrite <- Hqr. unfold x. rewrite mult_IZR.
    assert (He1 : bpow e1 = (bpow e2 * bpow e' * IZR (2 ^ s))%R).
    { rewrite <- (bpow_IZR s), <- !bpow_plus by lia. f_equal. unfold s. lia. }
    unfold F2R in *. rewrite He1. field.
    split; [lra|]. apply Rgt_not_eq. apply IZR_lt. lia. }
  assert (Hm2R : (0 < IZR m2)%R) by (apply IZR_lt; lia).
  assert (Hin : inbetween q e' (new_location m2 r) x).
  { rewrite new_location_spec by lia.
    rewrite plus_IZR, mult_IZR in Hkey.
    destruct (Z.eqb_spec r 0) as [Hr0|Hr0].
    - subst r. cbn [inbetween]. unfold F2R. nra.
    - cbn [inbetween]. unfold F2R. rewrite plus_IZR.
      assert (Hr1 : (0 < IZR r)%R) by (apply IZR_lt; lia).
      assert (Hr2 : (IZR r < IZR m2)%R) by (apply IZR_lt; lia).
      split; [split; nra|].
      destruct (Z.compare_spec (2 * r) m2) as [Hc|Hc|Hc]; cbn [Rcmp].
      + apply (f_equal IZR) in Hc. rewrite mult_IZR in Hc. nra.
      + apply IZR_lt in Hc. rewrite mult_IZR in Hc. nra.
      + apply IZR_lt in Hc. rewrite mult_IZR in Hc. nra. }
  split; [exact Hin|].
  assert (Hx1 : (bpow (d1 + e1 - (d2 + e2) - 1) < x)%R).
  { assert (H : (bpow (d1 + e1 - (d2 + e2) - 1) * bpow (d2 + e2) <= x * F2R m2 e2)%R).
    { rewrite <- bpow_plus. unfold x. replace (F2R m1 e1 / F2R m2 e2 * F2R m2 e2)%R
        with (F2R m1 e1) by (field; lra).
      replace (d1 + e1 - (d2 + e2) - 1 + (d2 + e2)) with (d1 - 1 + e1) by lia. exact HX1. }
    pose proof (bpow_pos (d1 + e1 - (d2 + e2) - 1)).
    assert (0 < x)%R by (unfold x; apply Rdiv_lt_0_compat; [|lra];
      eapply Rlt_le_trans; [apply bpow_pos|exact HX1]).
    nra. }
  assert (Hx2 : (x < bpow (d1 + e1 - (d2 + e2) + 1))%R).
  { assert (H : (x * F2R m2 e2 < bpow (d1 + e1 - (d2 + e2) + 1) * bpow (d2 - 1 + e2))%R).
    { rewrite <- bpow_plus. unfold x. replace (F2R m1 e1 / F2R m2 e2 * F2R m2 e2)%R
        with (F2R m1 e1) by (field; lra).
      replace (d1 + e1 - (d2 + e2) + 1 + (d2 - 1 + e2)) with (d1 + e1) by lia. exact HX2. }
    pose proof (bpow_pos (d1 + e1 - (d2 + e2) + 1)).
    pose proof (bpow_pos (d2 - 1 + e2)). nra. }
  pose proof (inbetween_bracket _ _ _ _ Hin) as [Hq1 Hq2].
  assert (Hq : 2 ^ 52 <= q).
  { assert (H : (F2R (2 ^ 52) e' < F2R (q + 1) e')%R).
    { eapply Rle_lt_trans; [|exact Hq2]. rewrite F2R_pow2 by lia.
      eapply Rle_trans; [|apply Rlt_le; exact Hx1]. apply bpow_le. unfold e'. lia. }
    apply F2R_lt_inv in H. lia. }
  split; [exact Hq|].
  assert (Hq0 : 0 < q) by lia.
  pose proof (F2R_bounds q e' Hq0) as [HQ1 HQ2].
  split.
  - assert (H : (bpow (d1 + e1 - (d2 + e2) - 1) < bpow (Zdigits2 q + e'))%R).
    { eapply Rlt_le_trans; [exact Hx1|]. eapply Rle_trans; [apply Rlt_le; exact Hq2|].
      pose proof (Zdigits2_bounds q Hq0) as [_ Hu]. pose proof (Zdigits2_pos q Hq0).
      rewrite <- F2R_pow2 by lia. apply F2R_le. lia. }
    apply bpow_lt_inv in H. lia.
  - assert (H : (bpow (Zdigits2 q - 1 + e') < bpow (d1 + e1 - (d2 + e2) + 1))%R) by lra.
    apply bpow_lt_inv in H. lia.
Qed.

Lemma SFdiv_rne s1 m1 e1 s2 m2 e2 :
  -1074 <= Zdigits2 (Z.pos m1) + e1 - (Zdigits2 (Z.pos m2) + e2) - 53 ->
  Zdigits2 (Z.pos m1) + e1 - (Zdigits2 (Z.pos m2) + e2) + 1 <= 1023 ->
  exists m e e0,
    SFdiv 53 1024 (S754_finite s1 m1 e1) (S754_finite s2 m2 e2)
      = S754_finite (xorb s1 s2) m e /\
    rne_at (F2R (Z.pos m1) e1 / F2R (Z.pos m2) e2)%R (Z.pos m) e e0 /\
    Zdigits2 (Z.pos m1) + e1 - (Zdigits2 (Z.pos m2) + e2) - 53 <= e0
      <= Zdigits2 (Z.pos m1) + e1 - (Zdigits2 (Z.pos m2) + e2) - 52.
Proof.
  intros Hlo Hhi.
  destruct (SFdiv_core_binary_spec (Z.pos m1) e1 (Z.pos m2) e2) as (q & e' & l & Hc & Hin & Hq & Hd);
    [lia|lia|exact Hlo|].
  cbn [SFdiv]. rewrite Hc.
  destruct (binary_round_aux_rne (xorb s1 s2) q e' l _ Hq Hin) as (m & e & Hr & Hrne);
    [lia|lia|].
  exists m, e, (Zdigits2 q + e' - 53). split; [exact Hr|]. split; [exact Hrne|]. lia.
Qed.

Lemma SFmul_rne s1 m1 e1 s2 m2 e2 :
  2 ^ 52 <= Z.pos (m1 * m2) ->
  -1074 <= Zdigits2 (Z.pos (m1 * m2)) + (e1 + e2) - 53 ->
  Zdigits2 (Z.pos (m1 * m2)) + (e1 + e2) <= 1023 ->
  exists m e,
    SFmul 53 1024 (S754_finite s1 m1 e1) (S754_finite s2 m2 e2)
      = S754_finite (xorb s1 s2) m e /\
    rne_at (F2R (Z.pos m1) e1 * F2R (Z.pos m2) e2)%R (Z.pos m) e
      (Zdigits2 (Z.pos (m1 * m2)) + (e1 + e2) - 53).
Proof.
  intros Hp Hlo Hhi. cbn [SFmul].
  apply binary_round_aux_rne; try assumption.
  cbn [inbetween]. unfold F2R. rewrite Pos2Z.inj_mul, mult_IZR, bpow_plus. ring.
Qed.

(** ** Consequences of correct rounding: error bound, uniqueness, order *)

Lemma rne_at_rel x m e e0 :
  rne_at x m e e0 ->
  (0 < x /\ IZR (2 ^ 53) * (F2R m e - x) <= x /\ IZR (2 ^ 53) * (x - F2R m e) <= x)%R.
Proof.
  intros (Hm & He & m0 & b & Hm0 & [Hx1 Hx2] & Hv & Hb & _).
  pose proof (bpow_pos e0) as Hbp.
  assert (H52 : (IZR (2 ^ 52) * bpow e0 <= F2R m0 e0)%R) by (apply F2R_le; lia).
  rewrite Hv. unfold F2R in *. rewrite plus_IZR in *.
  change (IZR (2 ^ 53)) with (2 * IZR (2 ^ 52))%R.
  assert (H0 : (0 < IZR (2 ^ 52))%R) by (apply IZR_lt; reflexivity).
  destruct b; cbn [Z.b2z] in *; repeat split; nra.
Qed.

Lemma rne_at_unique x m e e0 m' e' e0' :
  rne_at x m e e0 -> rne_at x m' e' e0' -> m = m' /\ e = e'.
Proof.
  intros (Hm & He & m0 & b & Hm0 & [Hx1 Hx2] & Hv & Hb & Hev)
         (Hm' & He' & m0' & b' & Hm0' & [Hx1' Hx2'] & Hv' & Hb' & Hev').
  assert (Hexp : forall a ea c ec, 2 ^ 52 <= a < 2 ^ 53 -> 2 ^ 52 <= c < 2 ^ 53 ->
             (F2R a ea <= x < F2R (c + 1) ec)%R -> ea <= ec).
  { intros a ea c ec Ha Hc [H1 H2].
    assert (H : (bpow (52 + ea) < bpow (53 + ec))%R).
    { rewrite <- !F2R_pow2 by lia.
      eapply Rle_lt_trans; [apply F2R_le; apply Ha|].
      eapply Rle_lt_trans; [exact H1|]. eapply Rlt_le_trans; [exact H2|].
      apply F2R_le. lia. }
    apply bpow_lt_inv in H. lia. }
  assert (e0 = e0').
  { apply Z.le_antisymm; [apply (Hexp m0 e0 m0' e0')|apply (Hexp m0' e0' m0 e0)]; auto. }
  subst e0'.
  assert (m0 = m0').
  { assert (m0 < m0' + 1) by (apply (F2R_lt_inv _ _ e0); lra).
    assert (m0' < m0 + 1) by (apply (F2R_lt_inv _ _ e0); lra). lia. }
  subst m0'.
  assert (b = b').
  { destruct b, b'; try reflexivity; exfalso.
    - assert (Hx : x = (F2R m0 e0 + bpow e0 / 2)%R) by lra.
      specialize (Hev Hx). specialize (Hev' Hx). cbn [Z.b2z] in *.
      rewrite Z.add_0_r in Hev'. rewrite Z.even_add, Hev' in Hev. discriminate.
    - assert (Hx : x = (F2R m0 e0 + bpow e0 / 2)%R) by lra.
      specialize (Hev Hx). specialize (Hev' Hx). cbn [Z.b2z] in *.
      rewrite Z.add_0_r in Hev. rewrite Z.even_add, Hev in Hev'. discriminate. }
  subst b'. rewrite <- Hv' in Hv. clear - Hm Hm' He He' Hv.
  assert (Hcase : e = e' \/ (e = e0 /\ e' = e0 + 1) \/ (e' = e0 /\ e = e0 + 1)) by lia.
  destruct Hcase as [->|[[-> ->]|[-> ->]]].
  - split; [|reflexivity].
    assert (m <= m') by (apply (F2R_le_inv _ _ e'); lra).
    assert (m' <= m) by (apply (F2R_le_inv _ _ e'); lra). lia.
  - exfalso. rewrite <- F2R_succ_exp in Hv.
    assert (m <= 2 * m') by (apply (F2R_le_inv _ _ e0); lra).
    assert (2 * m' <= m) by (apply (F2R_le_inv _ _ e0); lra). lia.
  - exfalso. rewrite <- F2R_succ_exp in Hv.
    assert (m' <= 2 * m) by (apply (F2R_le_inv _ _ e0); lra).
    assert (2 * m <= m') by (apply (F2R_le_inv _ _ e0); lra). lia.
Qed.

Lemma F2R_lt_canonical m1 e1 m2 e2 :
  2 ^ 52 <= m1 < 2 ^ 53 -> 2 ^ 52 <= m2 < 2 ^ 53 -> e1 < e2 ->
  (F2R m1 e1 < F2R m2 e2)%R.
Proof.
  intros H1 H2 He.
  apply Rlt_le_trans with (F2R (2 ^ 53) e1).
  - unfold F2R. pose proof (bpow_pos e1). assert (IZR m1 < IZR (2 ^ 53))%R by (apply IZR_lt; lia). nra.
  - apply Rle_trans with (F2R (2 ^ 52) e2); [|apply F2R_le; lia].
    rewrite !F2R_pow2 by lia. apply bpow_le. lia.
Qed.

Lemma SFltb_canonical m1 e1 m2 e2 :
  2 ^ 52 <= Z.pos m1 < 2 ^ 53 -> 2 ^ 52 <= Z.pos m2 < 2 ^ 53 ->
  SFltb (S754_finite false m1 e1) (S754_finite false m2 e2) = true
  <-> (F2R (Z.pos m1) e1 < F2R (Z.pos m2) e2)%R.
Proof.
  intros H1 H2. unfold SFltb. cbn [SFcompare].
  destruct (Z.compare_spec e1 e2) as [He|He|He].
  - subst e2. fold (Pos.compare m1 m2).
    destruct (Pos.compare_spec m1 m2) as [Hm|Hm|Hm].
    + subst m2. split; [discriminate|]. lra.
    + split; [intros _|reflexivity]. unfold F2R. pose proof (bpow_pos e1).
      assert (IZR (Z.pos m1) < IZR (Z.pos m2))%R by (apply IZR_lt; lia). nra.
    + split; [discriminate|]. intros H. apply F2R_lt_inv in H. lia.
  - split; [intros _|reflexivity]. apply F2R_lt_canonical; assumption.
  - split; [discriminate|]. intros H.
    pose proof (F2R_lt_canonical _ _ _ _ H2 H1 He). lra.
Qed.

(** ** The Python operations on positive operands *)

Lemma Zdigits2_le m k : 0 < m < 2 ^ k -> 1 <= Zdigits2 m <= k.
Proof.
  intros [Hm Hk]. pose proof (Zdigits2_bounds m Hm) as [Hl _].
  pose proof (Zdigits2_pos m Hm). split; [lia|].
  destruct (Z_lt_le_dec k (Zdigits2 m)) as [Hlt|]; [|lia].
  assert (2 ^ k <= 2 ^ (Zdigits2 m - 1)) by (apply Z.pow_le_mono_r; lia). lia.
Qed.

Lemma F2R_0 m : F2R m 0 = IZR m.
Proof. unfold F2R, bpow. simpl. lra. Qed.

Lemma int_truediv_rne a b :
  0 < a < 2 ^ 64 -> 0 < b < 2 ^ 64 ->
  exists m e e0,
    int_truediv a b = Ok (S754_finite false m e) /\
    rne_at (IZR a / IZR b)%R (Z.pos m) e e0 /\
    Zdigits2 a - Zdigits2 b - 53 <= e0 <= Zdigits2 a - Zdigits2 b - 52.
Proof.
  intros Ha Hb.
  pose proof (Zdigits2_le a 64 Ha). pose proof (Zdigits2_le b 64 Hb).
  unfold int_truediv. destruct (Z.eqb_spec b 0) as [|_]; [lia|].
  destruct a as [|pa|pa]; [lia| |lia]. destruct b as [|pb|pb]; [lia| |lia].
  cbn [exact_of_int].
  destruct (SFdiv_rne false pa 0 false pb 0) as (m & e & e0 & Hd & Hr & He); [lia|lia|].
  rewrite Hd. cbn [xorb]. exists m, e, e0. rewrite !F2R_0 in Hr.
  split; [reflexivity|]. split; [exact Hr|]. lia.
Qed.

Lemma iter_xO p d : Z.pos (Pos.iter xO p d) = Z.pos p * 2 ^ Z.pos d.
Proof.
  induction d as [|d IH] using Pos.peano_ind.
  - cbn [Pos.iter]. change (2 ^ 1) with 2. lia.
  - rewrite Pos.iter_succ, Pos2Z.inj_succ, Z.pow_succ_r by lia.
    rewrite Pos2Z.inj_xO, IH. lia.
Qed.

Lemma rne_at_exact m0 e0 m e :
  rne_at (F2R m0 e0) m e e0 -> F2R m e = F2R m0 e0.
Proof.
  intros (_ & _ & m1 & b & _ & [Hx1 Hx2] & Hv & Hb & _).
  assert (m1 = m0).
  { assert (m1 <= m0) by (apply (F2R_le_inv _ _ e0); lra).
    assert (m0 < m1 + 1) by (apply (F2R_lt_inv _ _ e0); lra). lia. }
  subst m1. destruct b; cbn [Z.b2z] in *.
  - pose proof (bpow_pos e0). lra.
  - rewrite Hv, Z.add_0_r. reflexivity.
Qed.

Lemma F2R_inj m1 m2 e : F2R m1 e = F2R m2 e -> m1 = m2.
Proof.
  intros H.
  assert (m1 <= m2) by (apply (F2R_le_inv _ _ e); lra).
  assert (m2 <= m1) by (apply (F2R_le_inv _ _ e); lra). lia.
Qed.

Lemma int_to_float_exact n :
  0 < n < 2 ^ 53 ->
  exists m,
    int_to_float n = Ok (S754_finite false m (Zdigits2 n - 53)) /\
    2 ^ 52 <= Z.pos m < 2 ^ 53 /\
    F2R (Z.pos m) (Zdigits2 n - 53) = IZR n.
Proof.
  intros Hn. pose proof (Zdigits2_le n 53 Hn) as Hd.
  destruct n as [|p|p]; [lia| |lia].
  pose proof (digits2_bounds p) as Hb.
  unfold int_to_float. cbn [binary_normalize]. unfold binary_round.
  cbn [Zdigits2] in *. rewrite fexp_normal by lia.
  set (d := Z.pos (digits2_pos p)) in *.
  assert (Hal : exists mz, shl_align p 0 (d + 0 - 53) = (mz, d - 53) /\
                           Z.pos mz = Z.pos p * 2 ^ (53 - d)).
  { unfold shl_align. destruct (d + 0 - 53 - 0) as [|q|q] eqn:Hq; [|lia|].
    - exists p. split; [f_equal; lia|]. replace (53 - d) with 0 by lia. lia.
    - exists (Pos.iter xO p q). split; [f_equal; lia|].
      rewrite iter_xO. f_equal. f_equal. lia. }
  destruct Hal as (mz & -> & Hmz).
  assert (Hmzb : 2 ^ 52 <= Z.pos mz < 2 ^ 53).
  { rewrite Hmz. split.
    - replace (2 ^ 52) with (2 ^ (d - 1) * 2 ^ (53 - d))
        by (rewrite <- Z.pow_add_r by lia; f_equal; lia).
      apply Z.mul_le_mono_nonneg_r; [apply Z.pow_nonneg|]; lia.
    - replace (2 ^ 53) with (2 ^ d * 2 ^ (53 - d))
        by (rewrite <- Z.pow_add_r by lia; f_equal; lia).
      apply Z.mul_lt_mono_pos_r; [apply Z.pow_pos_nonneg|]; lia. }
  assert (Hdz : Zdigits2 (Z.pos mz) = 53)
    by (apply Zdigits2_unique; [change (53 - 1) with 52|]; lia).
  destruct (binary_round_aux_rne false (Z.pos mz) (d - 53) loc_Exact
              (F2R (Z.pos mz) (d - 53))) as (m & e & Hr & Hrne);
    [lia|reflexivity|lia|lia|].
  rewrite Hdz in Hrne. replace (53 + (d - 53) - 53) with (d - 53) in Hrne by lia.
  pose proof (rne_at_exact _ _ _ _ Hrne) as Hv.
  assert (He : e = d - 53).
  { destruct Hrne as (Hm & He & _).
    destruct (Z.eq_dec e (d - 53)) as [|Hne]; [assumption|exfalso].
    assert (e = d - 53 + 1) by lia. subst e.
    rewrite <- F2R_succ_exp in Hv. apply F2R_inj in Hv. lia. }
  subst e. apply F2R_inj in Hv. rewrite Hr.
  exists m. split; [reflexivity|]. rewrite Hv. split; [assumption|].
  rewrite Hmz, F2R_bpow by lia. replace (d - 53 + (53 - d)) with 0 by lia. apply F2R_0.
Qed.

Lemma int_div_float_rne a my ey :
  0 < a < 2 ^ 53 -> 2 ^ 52 <= Z.pos my < 2 ^ 53 -> -400 <= ey <= 400 ->
  exists m e e0,
    int_div_float a (S754_finite false my ey) = Ok (S754_finite false m e) /\
    rne_at (IZR a / F2R (Z.pos my) ey)%R (Z.pos m) e e0 /\
    Zdigits2 a - ey - 106 <= e0 <= Zdigits2 a - ey - 105.
Proof.
  intros Ha Hmy Hey. pose proof (Zdigits2_le a 53 Ha) as Hd.
  destruct (int_to_float_exact a Ha) as (ma & Hc & Hma & Hva).
  unfold int_div_float. rewrite Hc. cbn [bind float_truediv].
  assert (Hda : Zdigits2 (Z.pos ma) = 53)
    by (apply Zdigits2_unique; [change (53 - 1) with 52|]; lia).
  assert (Hdy : Zdigits2 (Z.pos my) = 53)
    by (apply Zdigits2_unique; [change (53 - 1) with 52|]; lia).
  destruct (SFdiv_rne false ma (Zdigits2 a - 53) false my ey) as (m & e & e0 & Hdv & Hr & He);
    [rewrite Hda, Hdy; lia|rewrite Hda, Hdy; lia|].
  rewrite Hdv, Hva in *. cbn [xorb]. exists m, e, e0.
  split; [reflexivity|]. split; [exact Hr|]. rewrite Hda, Hdy in He. lia.
Qed.

Lemma int_mul_float_rne a my ey :
  0 < a < 2 ^ 53 -> 2 ^ 52 <= Z.pos my < 2 ^ 53 -> -400 <= ey <= 400 ->
  exists m e e0,
    int_mul_float a (S754_finite false my ey) = Ok (S754_finite false m e) /\
    rne_at (IZR a * F2R (Z.pos my) ey)%R (Z.pos m) e e0.
Proof.
  intros Ha Hmy Hey. pose proof (Zdigits2_le a 53 Ha) as Hd.
  destruct (int_to_float_exact a Ha) as (ma & Hc & Hma & Hva).
  unfold int_mul_float. rewrite Hc. cbn [bind].
  assert (Hp : 2 ^ 104 <= Z.pos (ma * my) < 2 ^ 106).
  { rewrite Pos2Z.inj_mul. change (2 ^ 104) with (2 ^ 52 * 2 ^ 52).
    change (2 ^ 106) with (2 ^ 53 * 2 ^ 53). nia. }
  assert (Hdp : 105 <= Zdigits2 (Z.pos (ma * my)) <= 106).
  { pose proof (Zdigits2_le (Z.pos (ma * my)) 106 ltac:(lia)).
    pose proof (Zdigits2_bounds (Z.pos (ma * my)) ltac:(lia)) as [_ Hu].
    split; [|lia].
    destruct (Z_lt_le_dec (Zdigits2 (Z.pos (ma * my))) 105) as [Hlt|]; [|lia].
    assert (2 ^ Zdigits2 (Z.pos (ma * my)) <= 2 ^ 104) by (apply Z.pow_le_mono_r; lia). lia. }
  destruct (SFmul_rne false ma (Zdigits2 a - 53) false my ey) as (m & e & Hm & Hr);
    [change (2 ^ 52) with 4503599627370496 in *; change (2 ^ 104) with 20282409603651670423947251286016 in *; lia|lia|lia|].
  rewrite Hm, Hva in *. cbn [xorb]. eauto.
Qed.

Lemma int_of_float_floor m e :
  exists z, int_of_float (S754_finite false m e) = Ok z /\
            (IZR z <= F2R (Z.pos m) e < IZR z + 1)%R.
Proof.
  cbn [int_of_float cond_Zopp]. eexists. split; [reflexivity|].
  destruct (Z_le_gt_dec 0 e) as [He|He].
  - rewrite Z.shiftl_mul_pow2 by lia. rewrite <- (F2R_0 (Z.pos m * 2 ^ e)).
    rewrite F2R_bpow by lia. rewrite Z.add_0_l. lra.
  - rewrite Z.shiftl_div_pow2 by lia.
    assert (Hp : 0 < 2 ^ (- e)) by (apply Z.pow_pos_nonneg; lia).
    pose proof (Z.div_mod (Z.pos m) (2 ^ (- e)) ltac:(lia)) as Hdm.
    pose proof (Z.mod_pos_bound (Z.pos m) (2 ^ (- e)) Hp) as Hr.
    set (q := Z.pos m / 2 ^ (- e)) in *. set (r := Z.pos m mod 2 ^ (- e)) in *.
    assert (Hb : (bpow e * IZR (2 ^ (- e)) = 1)%R).
    { rewrite <- bpow_IZR, <- bpow_plus by lia. replace (e + - e) with 0 by lia. reflexivity. }
    unfold F2R. rewrite Hdm, plus_IZR, mult_IZR.
    assert (0 <= IZR r)%R by (apply IZR_le; lia).
    assert (IZR r < IZR (2 ^ (- e)))%R by (apply IZR_lt; lia).
    pose proof (bpow_pos e).
    replace ((IZR (2 ^ (- e)) * IZR q + IZR r) * bpow e)%R
      with (IZR q * (bpow e * IZR (2 ^ (- e))) + IZR r * bpow e)%R by ring.
    rewrite Hb. split; nra.
Qed.

(** ** The same facts on [rounds_to] *)

Lemma rounds_to_close x f : rounds_to x f -> close (value f) x.
Proof.
  intros (m & e & e0 & -> & Hr). apply rne_at_rel in Hr. exact Hr.
Qed.

Lemma rounds_to_unique x f g : rounds_to x f -> rounds_to x g -> f = g.
Proof.
  intros (m & e & e0 & -> & Hr) (m' & e' & e0' & -> & Hr').
  destruct (rne_at_unique _ _ _ _ _ _ _ Hr Hr') as [Hm He].
  injection Hm as ->. subst e'. reflexivity.
Qed.

Lemma float_gt_rounds x f y g :
  rounds_to x f -> rounds_to y g ->
  float_gt f g = true <-> (value g < value f)%R.
Proof.
  intros (m & e & e0 & -> & Hr) (m' & e' & e0' & -> & Hr').
  unfold float_gt. cbn [value cond_Zopp].
  apply SFltb_canonical; [apply Hr'|apply Hr].
Qed.

Lemma int_truediv_rounds a b :
  0 < a < 2 ^ 31 -> 0 < b < 2 ^ 31 ->
  exists f, int_truediv a b = Ok f /\ rounds_to (IZR a / IZR b) f /\ moderate f.
Proof.
  intros Ha Hb.
  destruct (int_truediv_rne a b) as (m & e & e0 & Hd & Hr & He); [lia|lia|].
  pose proof (Zdigits2_le a 31 Ha). pose proof (Zdigits2_le b 31 Hb).
  exists (S754_finite false m e). split; [exact Hd|]. split.
  - exists m, e, e0. auto.
  - cbn [moderate]. destruct Hr as (_ & Hee & _). lia.
Qed.

Lemma int_div_float_rounds a y g :
  0 < a < 2 ^ 31 -> rounds_to y g -> moderate g ->
  exists f, int_div_float a g = Ok f /\ rounds_to (IZR a / value g) f.
Proof.
  intros Ha (m & e & e0 & -> & Hr) Hg. cbn [moderate value cond_Zopp] in *.
  destruct (int_div_float_rne a m e) as (m' & e' & e0' & Hd & Hr' & _);
    [lia|apply Hr|lia|].
  exists (S754_finite false m' e'). split; [exact Hd|]. exists m', e', e0'. auto.
Qed.

Lemma int_mul_float_rounds a y g :
  0 < a < 2 ^ 31 -> rounds_to y g -> moderate g ->
  exists f, int_mul_float a g = Ok f /\ rounds_to (IZR a * value g) f.
Proof.
  intros Ha (m & e & e0 & -> & Hr) Hg. cbn [moderate value cond_Zopp] in *.
  destruct (int_mul_float_rne a m e) as (m' & e' & e0' & Hd & Hr');
    [lia|apply Hr|lia|].
  exists (S754_finite false m' e'). split; [exact Hd|]. exists m', e', e0'. auto.
Qed.

Lemma int_of_float_rounds x f :
  rounds_to x f ->
  exists z, int_of_float f = Ok z /\ (IZR z <= value f < IZR z + 1)%R.
Proof.
  intros (m & e & e0 & -> & _). apply int_of_float_floor.
Qed.

(** ** Error analysis over the reals *)

Lemma close_pos v x : close v x -> (0 < v)%R.
Proof. intros (H0 & H1 & H2). lra. Qed.

Lemma close_div_r a v y :
  (0 < a)%R -> close v y ->
  (0 < a / v /\
   9007199254740991 * (a / v) <= 9007199254740992 * (a / y) /\
   9007199254740992 * (a / y) <= 9007199254740993 * (a / v))%R.
Proof.
  intros Ha Hc. pose proof (close_pos _ _ Hc) as Hv. destruct Hc as (Hy & H1 & H2).
  assert (Hq : (0 < a / v)%R) by (apply Rdiv_lt_0_compat; assumption).
  assert (Hq' : (0 < a / y)%R) by (apply Rdiv_lt_0_compat; assumption).
  assert (E1 : (a / v * v = a)%R) by (field; lra).
  assert (E2 : (a / y * y = a)%R) by (field; lra).
  split; [assumption|].
  set (p := (a / v)%R) in *. set (q := (a / y)%R) in *.
  split.
  - apply Rmult_le_reg_r with (y * v)%R; [nra|].
    replace (9007199254740991 * p * (y * v))%R with (9007199254740991 * y * (p * v))%R by ring.
    replace (9007199254740992 * q * (y * v))%R with (9007199254740992 * v * (q * y))%R by ring.
    rewrite E1, E2. nra.
  - apply Rmult_le_reg_r with (y * v)%R; [nra|].
    replace (9007199254740993 * p * (y * v))%R with (9007199254740993 * y * (p * v))%R by ring.
    replace (9007199254740992 * q * (y * v))%R with (9007199254740992 * v * (q * y))%R by ring.
    rewrite E1, E2. nra.
Qed.

(** [int(a / (a / c))] is [c] or [c - 1]. *)
Lemma self_quotient_bounds a c d v :
  (1 <= a)%R -> (1 <= c)%R -> (c <= 4096)%R ->
  close d (a / c) -> close v (a / d) -> (c - 1 < v < c + 1)%R.
Proof.
  intros Ha Hc1 Hc2 Hd Hv.
  destruct (close_div_r a d (a / c)%R ltac:(lra) Hd) as (Hq & H1 & H2).
  replace (a / (a / c))%R with c in * by (field; lra).
  destruct Hv as (_ & H3 & H4). lra.
Qed.

Lemma width_branch_error W H L ar v2 hr :
  (1 <= W <= 2147483648)%R -> (1 <= H <= 2147483648)%R -> (799 <= L <= 800)%R ->
  close ar (W / H) -> close v2 (L / ar) -> (hr <= v2 < hr + 1)%R ->
  (hr * W - L * H < 1 /\ L * H - W - hr * W < 1)%R.
Proof.
  intros HW HH HL Har Hv2 Hhr.
  destruct (close_div_r L ar (W / H)%R ltac:(lra) Har) as (Hp & H1 & H2).
  replace (L / (W / H))%R with (L * H / W)%R in * by (field; lra).
  assert (Eq : (L * H / W * W = L * H)%R) by (field; lra).
  destruct Hv2 as (_ & H3 & H4).
  set (p := (L / ar)%R) in *. set (q := (L * H / W)%R) in *.
  assert (HLH : (0 <= L * H <= 800 * 2147483648)%R) by nra.
  assert (Hq : (0 <= q)%R) by (unfold q; apply Rle_mult_inv_pos; lra).
  assert (B1 : (9007199254740991 * hr <= 9007199254740993 * q)%R) by nra.
  assert (B2 : (9007199254740991 * q < 9007199254740993 * (hr + 1))%R) by nra.
  split.
  - assert (9007199254740991 * (hr * W) <= 9007199254740993 * (q * W))%R by nra.
    rewrite Eq in *. nra.
  - assert (9007199254740991 * (q * W) < 9007199254740993 * ((hr + 1) * W))%R by nra.
    rewrite Eq in *. nra.
Qed.

Lemma height_branch_error W H Hr ar v2 lr :
  (1 <= W <= 2147483648)%R -> (1 <= H <= 2147483648)%R -> (599 <= Hr <= 600)%R ->
  close ar (W / H) -> close v2 (Hr * ar) -> (lr <= v2 < lr + 1)%R ->
  (lr * H - Hr * W < 1 /\ Hr * W - H - lr * H < 1)%R.
Proof.
  intros HW HH HHr Har Hv2 Hlr.
  pose proof (close_pos _ _ Har) as Harp.
  destruct Har as (Hx & H1 & H2). destruct Hv2 as (_ & H3 & H4).
  assert (Eq : (W / H * H = W)%R) by (field; lra).
  set (x := (W / H)%R) in *.
  assert (A1 : (9007199254740992 * (ar * H) <= 9007199254740993 * W)%R)
    by (rewrite <- Eq; nra).
  assert (A2 : (9007199254740991 * W <= 9007199254740992 * (ar * H))%R)
    by (rewrite <- Eq; nra).
  assert (HW2 : (0 <= Hr * W <= 600 * 2147483648)%R) by nra.
  set (t := (ar * H)%R) in *.
  assert (Ht : (0 < t)%R) by (unfold t; nra).
  assert (B1 : (9007199254740992 * (lr * H) <= 9007199254740993 * (Hr * t))%R).
  { replace (Hr * t)%R with (Hr * ar * H)%R by (unfold t; ring). nra. }
  assert (B2 : (9007199254740991 * (Hr * t) < 9007199254740992 * ((lr + 1) * H))%R).
  { replace (Hr * t)%R with (Hr * ar * H)%R by (unfold t; ring). nra. }
  assert (C1 : (9007199254740992 * (Hr * t) <= 9007199254740993 * (Hr * W))%R) by nra.
  assert (C2 : (9007199254740991 * (Hr * W) <= 9007199254740992 * (Hr * t))%R) by nra.
  split; nra.
Qed.

(** * The fitter on valid sizes *)

Lemma IZR_bounds n : 0 < n < 2 ^ 31 -> (1 <= IZR n <= 2147483648)%R.
Proof.
  intros [H1 H2]. split.
  - apply IZR_le. lia.
  - apply IZR_le. change (2 ^ 31) with 2147483648 in H2. lia.
Qed.

Lemma int_self_quotient a c d :
  0 < a < 2 ^ 31 -> 1 <= c <= 4096 ->
  rounds_to (IZR a / IZR c) d -> moderate d ->
  exists z, (x <- int_div_float a d ;; int_of_float x) = Ok z /\ c - 1 <= z <= c.
Proof.
  intros Ha Hc Hd Hm.
  destruct (int_div_float_rounds a _ d Ha Hd Hm) as (f & Hf & Hr).
  destruct (int_of_float_rounds _ _ Hr) as (z & Hz & Hfl).
  rewrite Hf. cbn [bind]. exists z. split; [exact Hz|].
  pose proof (IZR_bounds a Ha) as HA.
  assert (HC : (1 <= IZR c <= 4096)%R) by (split; apply IZR_le; lia).
  pose proof (self_quotient_bounds (IZR a) (IZR c) (value d) (value f)
                ltac:(lra) ltac:(lra) ltac:(lra)
                (rounds_to_close _ _ Hd) (rounds_to_close _ _ Hr)) as [Hlo Hhi].
  split.
  - assert (H : (IZR (c - 1) < IZR (z + 1))%R) by (rewrite minus_IZR, plus_IZR; lra).
    apply lt_IZR in H. lia.
  - assert (H : (IZR z < IZR (c + 1))%R) by (rewrite plus_IZR; lra).
    apply lt_IZR in H. lia.
Qed.

Lemma width_constrained_spec w h ld ar :
  0 < w < 2 ^ 31 -> 0 < h < 2 ^ 31 ->
  rounds_to (IZR w / 800) ld -> moderate ld ->
  rounds_to (IZR w / IZR h) ar -> moderate ar ->
  exists lr hr,
    width_constrained w ld ar = Ok (lr, hr) /\
    799 <= lr <= 800 /\ lr * h - w <= hr * w <= lr * h.
Proof.
  intros Hw Hh Hld Hmld Har Hmar. unfold width_constrained.
  destruct (int_self_quotient w 800 ld Hw ltac:(lia) Hld Hmld) as (lr & -> & Hlr).
  cbn [bind].
  destruct (int_div_float_rounds lr _ ar ltac:(lia) Har Hmar) as (f & -> & Hr).
  cbn [bind].
  destruct (int_of_float_rounds _ _ Hr) as (hr & -> & Hfl).
  cbn [bind]. exists lr, hr. split; [reflexivity|]. split; [lia|].
  pose proof (IZR_bounds w Hw) as HW. pose proof (IZR_bounds h Hh) as HH.
  assert (HL : (799 <= IZR lr <= 800)%R) by (split; apply IZR_le; lia).
  destruct (width_branch_error (IZR w) (IZR h) (IZR lr) (value ar) (value f) (IZR hr)
              HW HH HL (rounds_to_close _ _ Har) (rounds_to_close _ _ Hr) Hfl) as [E1 E2].
  split.
  - assert (H : (IZR (lr * h - w - hr * w) < IZR 1)%R)
      by (rewrite !minus_IZR, !mult_IZR; lra).
    apply lt_IZR in H. lia.
  - assert (H : (IZR (hr * w - lr * h) < IZR 1)%R)
      by (rewrite !minus_IZR, !mult_IZR; lra).
    apply lt_IZR in H. lia.
Qed.

Lemma height_constrained_spec w h hd ar :
  0 < w < 2 ^ 31 -> 0 < h < 2 ^ 31 ->
  rounds_to (IZR h / 600) hd -> moderate hd ->
  rounds_to (IZR w / IZR h) ar -> moderate ar ->
  exists lr hr,
    height_constrained h hd ar = Ok (lr, hr) /\
    599 <= hr <= 600 /\ hr * w - h <= lr * h <= hr * w.
Proof.
  intros Hw Hh Hhd Hmhd Har Hmar. unfold height_constrained.
  destruct (int_self_quotient h 600 hd Hh ltac:(lia) Hhd Hmhd) as (hr & -> & Hhr).
  cbn [bind].
  destruct (int_mul_float_rounds hr _ ar ltac:(lia) Har Hmar) as (f & -> & Hr).
  cbn [bind].
  destruct (int_of_float_rounds _ _ Hr) as (lr & -> & Hfl).
  cbn [bind]. exists lr, hr. split; [reflexivity|]. split; [lia|].
  pose proof (IZR_bounds w Hw) as HW. pose proof (IZR_bounds h Hh) as HH.
  assert (HL : (599 <= IZR hr <= 600)%R) by (split; apply IZR_le; lia).
  destruct (height_branch_error (IZR w) (IZR h) (IZR hr) (value ar) (value f) (IZR lr)
              HW HH HL (rounds_to_close _ _ Har) (rounds_to_close _ _ Hr) Hfl) as [E1 E2].
  split.
  - assert (H : (IZR (hr * w - h - lr * h) < IZR 1)%R)
      by (rewrite !minus_IZR, !mult_IZR; lra).
    apply lt_IZR in H. lia.
  - assert (H : (IZR (lr * h - hr * w) < IZR 1)%R)
      by (rewrite !minus_IZR, !mult_IZR; lra).
    apply lt_IZR in H. lia.
Qed.

(** The float comparison of the two ratios is the exact comparison. *)
Lemma constraining_exact w h ld hd :
  0 < w < 2 ^ 31 -> 0 < h < 2 ^ 31 ->
  rounds_to (IZR w / 800) ld -> rounds_to (IZR h / 600) hd ->
  constraining ld hd = if 4 * h <? 3 * w then WidthAxis else HeightAxis.
Proof.
  intros Hw Hh Hld Hhd. unfold constraining.
  pose proof (IZR_bounds w Hw) as HW. pose proof (IZR_bounds h Hh) as HH.
  pose proof (float_gt_rounds _ _ _ _ Hld Hhd) as Hgt.
  pose proof (rounds_to_close _ _ Hld) as (_ & L1 & L2).
  pose proof (rounds_to_close _ _ Hhd) as (_ & H1 & H2).
  destruct (Z.ltb_spec (4 * h) (3 * w)) as [Hlt|Hge].
  - assert (E : (4 * IZR h + 1 <= 3 * IZR w)%R).
    { rewrite <- !mult_IZR, <- plus_IZR. apply IZR_le. lia. }
    replace (float_gt ld hd) with true; [reflexivity|].
    symmetry. apply Hgt. lra.
  - destruct (float_gt ld hd) eqn:Hf; [exfalso|reflexivity].
    assert (Hv : (value hd < value ld)%R) by (apply Hgt; reflexivity).
    destruct (Z.eq_dec (4 * h) (3 * w)) as [Heq|Hne].
    + assert (E : (IZR w / 800 = IZR h / 600)%R).
      { apply (f_equal IZR) in Heq. rewrite !mult_IZR in Heq. lra. }
      rewrite E in Hld. rewrite (rounds_to_unique _ _ _ Hld Hhd) in Hv. lra.
    + assert (E : (3 * IZR w + 1 <= 4 * IZR h)%R).
      { rewrite <- !mult_IZR, <- plus_IZR. apply IZR_le. lia. }
      lra.
Qed.

Lemma resize_dimensions_scaling w h :
  0 < w < 2 ^ 31 -> 0 < h < 2 ^ 31 -> (w <? 800) && (h <? 600) = false ->
  exists ar ld hd,
    int_truediv w h = Ok ar /\ int_truediv w 800 = Ok ld /\ int_truediv h 600 = Ok hd /\
    rounds_to (IZR w / IZR h) ar /\ moderate ar /\
    rounds_to (IZR w / 800) ld /\ moderate ld /\
    rounds_to (IZR h / 600) hd /\ moderate hd /\
    constraining ld hd = (if 4 * h <? 3 * w then WidthAxis else HeightAxis) /\
    resize_dimensions w h =
      (sz <- (if 4 * h <? 3 * w then width_constrained w ld ar
              else height_constrained h hd ar) ;;
       Ok (Resize sz)).
Proof.
  intros Hw Hh Hn.
  destruct (int_truediv_rounds w h Hw Hh) as (ar & Har & Rar & Mar).
  destruct (int_truediv_rounds w 800 Hw ltac:(size_lia))
    as (ld & Hld & Rld & Mld).
  destruct (int_truediv_rounds h 600 Hh ltac:(size_lia))
    as (hd & Hhd & Rhd & Mhd).
  pose proof (constraining_exact w h ld hd Hw Hh Rld Rhd) as Hc.
  exists ar, ld, hd. repeat (split; [assumption|]).
  unfold resize_dimensions. rewrite Har, Hn, Hld, Hhd. cbn [bind].
  destruct (w >? h); cbn [bind]; rewrite Hc; destruct (4 * h <? 3 * w); reflexivity.
Qed.

Lemma resize_dimensions_unchanged w h :
  0 < w < 2 ^ 31 -> 0 < h < 2 ^ 31 -> (w <? 800) && (h <? 600) = true ->
  resize_dimensions w h = Ok Unchanged.
Proof.
  intros Hw Hh Hn.
  destruct (int_truediv_rounds w h Hw Hh) as (ar & Har & _).
  unfold resize_dimensions. rewrite Har, Hn. cbn [bind].
  destruct (w >? h); reflexivity.
Qed.

(** The scaling path on valid sizes: which branch, and how exact. *)
Lemma resize_dimensions_scaled w h :
  0 < w < 2 ^ 31 -> 0 < h < 2 ^ 31 -> (w <? 800) && (h <? 600) = false ->
  exists lr hr,
    resize_dimensions w h = Ok (Resize (lr, hr)) /\
    ((4 * h < 3 * w /\ 799 <= lr <= 800 /\ lr * h - w <= hr * w <= lr * h) \/
     (3 * w <= 4 * h /\ 599 <= hr <= 600 /\ hr * w - h <= lr * h <= hr * w)).
Proof.
  intros Hw Hh Hn.
  destruct (resize_dimensions_scaling w h Hw Hh Hn)
    as (ar & ld & hd & _ & _ & _ & Rar & Mar & Rld & Mld & Rhd & Mhd & _ & ->).
  destruct (Z.ltb_spec (4 * h) (3 * w)) as [Hlt|Hge].
  - destruct (width_constrained_spec w h ld ar Hw Hh Rld Mld Rar Mar)
      as (lr & hr & -> & H1 & H2).
    exists lr, hr. split; [reflexivity|]. left. auto.
  - destruct (height_constrained_spec w h hd ar Hw Hh Rhd Mhd Rar Mar)
      as (lr & hr & -> & H1 & H2).
    exists lr, hr. split; [reflexivity|]. right. auto.
Qed.

Lemma fitted_size_aspect sz sz' :
  valid_size sz -> fitted_size sz = Ok sz' -> aspect_within_one_pixel sz sz'.
Proof.
  destruct sz as [w h]. intros [Hw Hh] Hf. cbn [fst snd] in *.
  unfold fitted_size, aspect_within_one_pixel in *. cbn [fst snd] in *.
  destruct ((w <? 800) && (h <? 600)) eqn:Hn.
  - rewrite (resize_dimensions_unchanged w h Hw Hh Hn) in Hf. cbn [bind] in Hf.
    injection Hf as <-. cbn [fst snd]. lia.
  - destruct (resize_dimensions_scaled w h Hw Hh Hn) as (lr & hr & Hr & Hb).
    rewrite Hr in Hf. cbn [bind] in Hf. injection Hf as <-. cbn [fst snd].
    destruct Hb as [(_ & _ & H)|(_ & _ & H)]; lia.
Qed.

(** On valid sizes the fitter always gives a size, never a negative one. *)
Lemma fitted_size_total sz :
  valid_size sz ->
  exists a b, fitted_size sz = Ok (a, b) /\ 0 <= a /\ 0 <= b.
Proof.
  destruct sz as [w h]. intros [Hw Hh]. cbn [fst snd] in *.
  unfold fitted_size. cbn [fst snd].
  destruct ((w <? 800) && (h <? 600)) eqn:Hn.
  - rewrite (resize_dimensions_unchanged w h Hw Hh Hn). cbn [bind].
    exists w, h. split; [reflexivity|lia].
  - destruct (resize_dimensions_scaled w h Hw Hh Hn) as (lr & hr & -> & Hb).
    cbn [bind]. exists lr, hr. split; [reflexivity|].
    destruct Hb as [(H1 & H2 & H3)|(H1 & H2 & H3)]; nia.
Qed.

(** ** Fitting a fitted size *)

Lemma self_product_bounds a c d v :
  (1 <= a)%R -> (a <= 4096)%R -> (1 <= c)%R ->
  close d (a / c) -> close v (c * d) -> (a - 1 < v < a + 1)%R.
Proof.
  intros Ha1 Ha2 Hc (Hx & H1 & H2) (_ & H3 & H4).
  assert (E : (a / c * c = a)%R) by (field; lra).
  set (x := (a / c)%R) in *.
  assert (B1 : (9007199254740992 * (c * d) <= 9007199254740993 * a)%R)
    by (rewrite <- E; nra).
  assert (B2 : (9007199254740991 * a <= 9007199254740992 * (c * d))%R)
    by (rewrite <- E; nra).
  lra.
Qed.

Lemma int_self_product a c d :
  1 <= a <= 4096 -> 0 < c < 2 ^ 31 ->
  rounds_to (IZR a / IZR c) d -> moderate d ->
  exists z, (x <- int_mul_float c d ;; int_of_float x) = Ok z /\ a - 1 <= z <= a.
Proof.
  intros Ha Hc Hd Hm.
  destruct (int_mul_float_rounds c _ d Hc Hd Hm) as (f & Hf & Hr).
  destruct (int_of_float_rounds _ _ Hr) as (z & Hz & Hfl).
  rewrite Hf. cbn [bind]. exists z. split; [exact Hz|].
  pose proof (IZR_bounds c Hc) as HC.
  assert (HA : (1 <= IZR a <= 4096)%R) by (split; apply IZR_le; lia).
  pose proof (self_product_bounds (IZR a) (IZR c) (value d) (value f)
                ltac:(lra) ltac:(lra) ltac:(lra)
                (rounds_to_close _ _ Hd) (rounds_to_close _ _ Hr)) as [Hlo Hhi].
  split.
  - assert (H : (IZR (a - 1) < IZR (z + 1))%R) by (rewrite minus_IZR, plus_IZR; lra).
    apply lt_IZR in H. lia.
  - assert (H : (IZR z < IZR (a + 1))%R) by (rewrite plus_IZR; lra).
    apply lt_IZR in H. lia.
Qed.

Lemma refit_width b :
  0 < b <= 599 ->
  exists b', resize_dimensions 800 b = Ok (Resize (800, b')) /\ b - 1 <= b' <= b.
Proof.
  intros Hb.
  destruct (resize_dimensions_scaling 800 b) as
    (ar & ld & hd & Har & Hld & _ & Rar & Mar & _ & _ & _ & _ & _ & ->);
    [size_lia|size_lia|reflexivity|].
  replace (4 * b <? 3 * 800) with true by (symmetry; apply Z.ltb_lt; lia).
  assert (Eld : ld = S754_finite false 4503599627370496 (-52)).
  { vm_compute in Hld. injection Hld as <-. reflexivity. }
  subst ld. unfold width_constrained.
  change (x <- int_div_float 800 (S754_finite false 4503599627370496 (-52)) ;; int_of_float x)
    with (@Ok Z 800).
  cbn [bind].
  destruct (int_self_quotient 800 b ar) as (z & -> & Hz);
    [size_lia|lia|exact Rar|exact Mar|].
  cbn [bind]. exists z. split; [reflexivity|lia].
Qed.

Lemma refit_height a :
  0 < a <= 800 ->
  exists a', resize_dimensions a 600 = Ok (Resize (a', 600)) /\ a - 1 <= a' <= a.
Proof.
  intros Ha.
  destruct (resize_dimensions_scaling a 600) as
    (ar & ld & hd & Har & _ & Hhd & Rar & Mar & _ & _ & _ & _ & _ & ->);
    [size_lia|size_lia| |].
  { apply andb_false_iff. right. reflexivity. }
  replace (4 * 600 <? 3 * a) with false by (symmetry; apply Z.ltb_ge; lia).
  assert (Ehd : hd = S754_finite false 4503599627370496 (-52)).
  { vm_compute in Hhd. injection Hhd as <-. reflexivity. }
  subst hd. unfold height_constrained.
  change (x <- int_div_float 600 (S754_finite false 4503599627370496 (-52)) ;; int_of_float x)
    with (@Ok Z 600).
  cbn [bind].
  destruct (int_self_product a 600 ar) as (z & -> & Hz);
    [lia|size_lia|exact Rar|exact Mar|].
  cbn [bind]. exists z. split; [reflexivity|lia].
Qed.

(** ** The specified formulas in integer arithmetic *)

Lemma Zfloor_quotient n d : 0 < d -> Zfloor (IZR n / IZR d) = n / d.
Proof.
  intros Hd. apply Zfloor_eq.
  assert (HD : (0 < IZR d)%R) by (apply IZR_lt; exact Hd).
  pose proof (Z.mul_div_le n d Hd) as H1.
  pose proof (Z.mul_succ_div_gt n d Hd) as H2.
  apply IZR_le in H1. apply IZR_lt in H2.
  rewrite mult_IZR in H1. rewrite mult_IZR, succ_IZR in H2.
  assert (E : (IZR n = IZR n / IZR d * IZR d)%R) by (field; lra).
  set (x := (IZR n / IZR d)%R) in *. split; nra.
Qed.

(** In real numbers the constrained dimension is its bound, exactly, and
    the other one is the proportional value rounded down. *)
Lemma reference_scaling_exact w h :
  0 < w -> 0 < h ->
  reference_scaling w h
    = if 4 * h <? 3 * w then (800, 800 * h / w) else (600 * w / h, 600).
Proof.
  intros Hw Hh. unfold reference_scaling. cbv zeta.
  assert (HW : (0 < IZR w)%R) by (apply IZR_lt; exact Hw).
  assert (HH : (0 < IZR h)%R) by (apply IZR_lt; exact Hh).
  assert (E1 : (IZR w / (IZR w / 800) = IZR 800)%R) by (field; lra).
  assert (E2 : (IZR h / (IZR h / 600) = IZR 600)%R) by (field; lra).
  rewrite E1, E2, !ZfloorZ.
  destruct (Rlt_dec (IZR h / 600) (IZR w / 800)) as [Hlt|Hge];
    destruct (Z.ltb_spec (4 * h) (3 * w)) as [Hz|Hz].
  - f_equal.
    replace (IZR 800 / (IZR w / IZR h))%R with (IZR (800 * h) / IZR w)%R
      by (rewrite mult_IZR; field; lra).
    apply Zfloor_quotient. exact Hw.
  - exfalso. apply IZR_le in Hz. rewrite !mult_IZR in Hz. lra.
  - exfalso. apply IZR_lt in Hz. rewrite !mult_IZR in Hz. lra.
  - f_equal.
    replace (IZR 600 * (IZR w / IZR h))%R with (IZR (600 * w) / IZR h)%R
      by (rewrite mult_IZR; field; lra).
    apply Zfloor_quotient. exact Hh.
Qed.

(** How far the code stays from the specified formulas on valid sizes: it
    is never above them, at most one pixel below in the height and at most
    two pixels below in the width. *)
Lemma scaling_near_reference w h :
  0 < w < 2 ^ 31 -> 0 < h < 2 ^ 31 -> (w <? 800) && (h <? 600) = false ->
  exists a b,
    fitted_size (w, h) = Ok (a, b) /\
    fst (reference_scaling w h) - 2 <= a <= fst (reference_scaling w h) /\
    snd (reference_scaling w h) - 1 <= b <= snd (reference_scaling w h).
Proof.
  intros Hw Hh Hn. unfold fitted_size. cbn [fst snd].
  destruct (resize_dimensions_scaled w h Hw Hh Hn) as (lr & hr & -> & Hb).
  cbn [bind]. exists lr, hr. split; [reflexivity|].
  rewrite reference_scaling_exact by lia.
  destruct Hb as [(H1 & H2 & H3)|(H1 & H2 & H3)].
  - replace (4 * h <? 3 * w) with true by (symmetry; apply Z.ltb_lt; lia).
    cbn [fst snd].
    pose proof (Z.mul_div_le (800 * h) w ltac:(lia)) as D1.
    pose proof (Z.mul_succ_div_gt (800 * h) w ltac:(lia)) as D2.
    set (B := 800 * h / w) in *. split; [lia|]. split; nia.
  - replace (4 * h <? 3 * w) with false by (symmetry; apply Z.ltb_ge; lia).
    cbn [fst snd].
    pose proof (Z.mul_div_le (600 * w) h ltac:(lia)) as D1.
    pose proof (Z.mul_succ_div_gt (600 * w) h ltac:(lia)) as D2.
    set (A := 600 * w / h) in *. split; [|lia]. split; nia.
Qed.

(** * The properties of the fitter *)

(** C1 (positive fitted dimensions), evaluated where it fails: for the
    positive size 10000 x 1 the width branch gives
    [int(800 / 10000.0) = 0] for the height, so the fitter asks for a
    preview of 800 x 0. *)
Theorem fitted_size_zero_height :
  fitted_size (10000, 1) = Ok (800, 0).
Proof. vm_compute. reflexivity. Qed.

(** PIL refuses that size, so such an image cannot be added at all. *)
Example wide_image_cannot_be_loaded :
  ImageFrame_init
    (disk_of (<["wide.png" := ImageFile (rgb_image (10000, 1) "wide.png")]> empty))
    "wide.png" = Raise ValueError.
Proof. vm_compute. reflexivity. Qed.

(** The same zero dimension after a rotation: the canonical image of a
    700 x 1 picture is replaced, the fitter asks for 0 x 600, PIL refuses,
    and [rotate] raises with the old preview still in place. *)
Example failed_rotate_leaves_old_preview :
  let f := {| original_image := thin; resized_image := Some thin;
              display_image := Some thin |} in
  rotate f =
    (Raise ValueError,
     {| original_image := PIL.rotate90_expand thin;
        resized_image := Some thin; display_image := Some thin |}).
Proof. vm_compute. reflexivity. Qed.

(** C3, as the code has it: on valid sizes the fitter takes the no-op path
    (the preview is the original image itself) exactly when [w < 800] and
    [h < 600], both strict, and then the fitted size is the original size.
    (799, 599) is left alone; (800, 600) goes through the scaling path,
    which asks for 800 x 600 again. *)
Theorem no_op_iff_below_thresholds w h :
  0 < w < 2 ^ 31 -> 0 < h < 2 ^ 31 ->
  (resize_dimensions w h = Ok Unchanged <-> w < 800 /\ h < 600) /\
  (w < 800 /\ h < 600 -> fitted_size (w, h) = Ok (w, h)) /\
  fitted_size (799, 599) = Ok (799, 599) /\
  resize_dimensions 800 600 = Ok (Resize (800, 600)).
Proof.
  intros Hw Hh.
  assert (Hiff : resize_dimensions w h = Ok Unchanged <-> w < 800 /\ h < 600).
  { destruct ((w <? 800) && (h <? 600)) eqn:Hn.
    - split; [intros _|intros _; apply resize_dimensions_unchanged; assumption].
      apply andb_true_iff in Hn. lia.
    - split.
      + intros He. destruct (resize_dimensions_scaled w h Hw Hh Hn) as (lr & hr & Hr & _).
        rewrite Hr in He. discriminate.
      + intros [H1 H2]. apply andb_false_iff in Hn. lia. }
  split; [exact Hiff|]. split.
  - intros Hb. apply Hiff in Hb. unfold fitted_size. cbn [fst snd]. rewrite Hb. reflexivity.
  - split; vm_compute; reflexivity.
Qed.

Lemma no_op_iff_below_thresholds_witness :
  resize_dimensions 640 480 = Ok Unchanged <-> 640 < 800 /\ 480 < 600.
Proof.
  refine (proj1 (no_op_iff_below_thresholds 640 480 _ _));
    vm_compute; split; reflexivity.
Defined.

(** C3 as stated fails at (800, 600): the fitted size is the original size
    although the size is not below both thresholds. *)
Lemma fitted_800_600_is_800_600 :
  fitted_size (800, 600) = Ok (800, 600) /\ ~ (800 < 800 /\ 600 < 600).
Proof. split; [vm_compute; reflexivity|lia]. Qed.

(** C4, as the code has it: on valid sizes the two ratios are computed
    without error, the width branch is taken exactly when
    [w / 800 > h / 600] as exact fractions, and the height branch
    otherwise, a tie included; the scaling path then runs the branch of that
    axis. *)
Theorem constraining_axis_strict w h :
  0 < w < 2 ^ 31 -> 0 < h < 2 ^ 31 ->
  exists width_ratio height_ratio,
    int_truediv w 800 = Ok width_ratio /\
    int_truediv h 600 = Ok height_ratio /\
    (constraining width_ratio height_ratio = WidthAxis <-> 4 * h < 3 * w) /\
    (constraining width_ratio height_ratio = HeightAxis <-> 3 * w <= 4 * h) /\
    ((w <? 800) && (h <? 600) = false ->
     exists aspect_ratio,
       int_truediv w h = Ok aspect_ratio /\
       resize_dimensions w h =
         (sz <- match constraining width_ratio height_ratio with
                | WidthAxis => width_constrained w width_ratio aspect_ratio
                | HeightAxis => height_constrained h height_ratio aspect_ratio
                end ;;
          Ok (Resize sz))).
Proof.
  intros Hw Hh.
  destruct (int_truediv_rounds w 800 Hw ltac:(size_lia)) as (ld & Hld & Rld & _).
  destruct (int_truediv_rounds h 600 Hh ltac:(size_lia)) as (hd & Hhd & Rhd & _).
  pose proof (constraining_exact w h ld hd Hw Hh Rld Rhd) as Hc.
  exists ld, hd. split; [exact Hld|]. split; [exact Hhd|].
  rewrite Hc. destruct (Z.ltb_spec (4 * h) (3 * w)) as [Hlt|Hge].
  - split; [split; [intros _; lia|reflexivity]|].
    split; [split; [discriminate|lia]|].
    intros Hn. destruct (resize_dimensions_scaling w h Hw Hh Hn)
      as (ar & ld' & hd' & Har & Hld' & Hhd' & _ & _ & _ & _ & _ & _ & _ & Hr).
    rewrite Hld in Hld'. injection Hld' as <-. rewrite Hhd in Hhd'. injection Hhd' as <-.
    exists ar. split; [exact Har|]. rewrite Hr.
    replace (4 * h <? 3 * w) with true by (symmetry; apply Z.ltb_lt; lia). reflexivity.
  - split; [split; [discriminate|lia]|].
    split; [split; [intros _; lia|reflexivity]|].
    intros Hn. destruct (resize_dimensions_scaling w h Hw Hh Hn)
      as (ar & ld' & hd' & Har & Hld' & Hhd' & _ & _ & _ & _ & _ & _ & _ & Hr).
    rewrite Hld in Hld'. injection Hld' as <-. rewrite Hhd in Hhd'. injection Hhd' as <-.
    exists ar. split; [exact Har|]. rewrite Hr.
    replace (4 * h <? 3 * w) with false by (symmetry; apply Z.ltb_ge; lia). reflexivity.
Qed.

Lemma constraining_axis_strict_witness :
  exists width_ratio height_ratio,
    int_truediv 872 800 = Ok width_ratio /\
    int_truediv 654 600 = Ok height_ratio /\
    (constraining width_ratio height_ratio = WidthAxis <-> 4 * 654 < 3 * 872) /\
    (constraining width_ratio height_ratio = HeightAxis <-> 3 * 872 <= 4 * 654) /\
    ((872 <? 800) && (654 <? 600) = false ->
     exists aspect_ratio,
       int_truediv 872 654 = Ok aspect_ratio /\
       resize_dimensions 872 654 =
         (sz <- match constraining width_ratio height_ratio with
                | WidthAxis => width_constrained 872 width_ratio aspect_ratio
                | HeightAxis => height_constrained 654 height_ratio aspect_ratio
                end ;;
          Ok (Resize sz))).
Proof.
  apply (constraining_axis_strict 872 654); vm_compute; split; reflexivity.
Defined.

(** C4 as stated fails on a tie: for 872 x 654 both ratios are the same
    float, and the code returns what the height branch computes, (800, 600),
    not what the width branch would, (799, 599). *)
Lemma tie_takes_height_branch :
  int_truediv 872 800 = int_truediv 654 600 /\
  resize_dimensions 872 654 = Ok (Resize (800, 600)) /\
  (aspect_ratio <- int_truediv 872 654 ;;
   height_ratio <- int_truediv 654 600 ;;
   height_constrained 654 height_ratio aspect_ratio) = Ok (800, 600) /\
  (aspect_ratio <- int_truediv 872 654 ;;
   width_ratio <- int_truediv 872 800 ;;
   width_constrained 872 width_ratio aspect_ratio) = Ok (799, 599).
Proof. repeat split; vm_compute; reflexivity. Qed.

(** C5 (the reference formulas), evaluated where it fails: for 805 x 100
    the width is the constraining axis and the formulas give
    [floor(805 / (805 / 800)) = 800] and [floor(800 / (805 / 100)) = 99],
    but in floating point [805 / (805 / 800)] is just under 800 and
    [int()] cuts it to 799, so the code asks for 799 x 99. *)
Theorem scaling_misses_reference_formulas :
  reference_scaling 805 100 = (800, 99) /\
  fitted_size (805, 100) = Ok (799, 99) /\
  (width_ratio <- int_truediv 805 800 ;;
   x <- int_div_float 805 width_ratio ;; int_of_float x) = Ok 799.
Proof.
  split; [rewrite reference_scaling_exact by lia; reflexivity|].
  split; vm_compute; reflexivity.
Qed.

(** Both orientations are bounded by 800 for the width and 600 for the
    height: a portrait image of 600 x 1200 comes out as 300 x 600. *)
Example portrait_uses_the_same_bounds :
  fitted_size (600, 1200) = Ok (300, 600) /\ reference_scaling 600 1200 = (300, 600).
Proof.
  split; [vm_compute; reflexivity|].
  rewrite reference_scaling_exact by lia. reflexivity.
Qed.

(** How far fitting a fitted size can move it: when the fitted size
    [(a, b)] of a valid size has positive dimensions, fitting it again gives
    [(a, b)] or a size one pixel smaller on one axis; it gives [(a, b)]
    whenever [a < 800] and [b < 600]. *)
Lemma refit_within_one_pixel w h a b :
  0 < w < 2 ^ 31 -> 0 < h < 2 ^ 31 ->
  fitted_size (w, h) = Ok (a, b) -> 0 < a -> 0 < b ->
  (a < 800 /\ b < 600 -> fitted_size (a, b) = Ok (a, b)) /\
  (fitted_size (a, b) = Ok (a, b) \/
   fitted_size (a, b) = Ok (a - 1, b) \/
   fitted_size (a, b) = Ok (a, b - 1)).
Proof.
  intros Hw Hh Hf Ha Hb.
  assert (Hab : a <= 800 /\ b <= 600 /\ (a = 800 -> b = 600 \/ b <= 599) /\
                (b = 600 -> a <= 800) /\ (a < 800 -> b < 600 \/ b = 600)).
  { unfold fitted_size in Hf. cbn [fst snd] in Hf.
    destruct ((w <? 800) && (h <? 600)) eqn:Hn.
    - rewrite (resize_dimensions_unchanged w h Hw Hh Hn) in Hf. cbn [bind] in Hf.
      injection Hf as <- <-. apply andb_true_iff in Hn. lia.
    - destruct (resize_dimensions_scaled w h Hw Hh Hn) as (lr & hr & Hr & Hbr).
      rewrite Hr in Hf. cbn [bind] in Hf. injection Hf as <- <-.
      destruct Hbr as [(H1 & H2 & H3)|(H1 & H2 & H3)]; nia. }
  assert (Hfix : a < 800 /\ b < 600 -> fitted_size (a, b) = Ok (a, b)).
  { intros [H1 H2]. unfold fitted_size. cbn [fst snd].
    rewrite resize_dimensions_unchanged; [reflexivity|size_lia|size_lia|].
    apply andb_true_iff. split; apply Z.ltb_lt; lia. }
  split; [exact Hfix|].
  destruct (Z_lt_le_dec a 800) as [Ha8|Ha8]; [destruct (Z_lt_le_dec b 600) as [Hb6|Hb6]|].
  - left. apply Hfix. lia.
  - assert (b = 600) by lia. subst b.
    destruct (refit_height a ltac:(lia)) as (a' & Hr & Ha').
    unfold fitted_size. cbn [fst snd]. rewrite Hr. cbn [bind].
    assert (a' = a \/ a' = a - 1) as [->| ->] by lia; auto.
  - assert (a = 800) by lia. subst a.
    destruct (Z.eq_dec b 600) as [->|Hne].
    + left. vm_compute. reflexivity.
    + destruct (refit_width b ltac:(lia)) as (b' & Hr & Hb').
      unfold fitted_size. cbn [fst snd]. rewrite Hr. cbn [bind].
      assert (b' = b \/ b' = b - 1) as [->| ->] by lia; auto.
Qed.

Lemma refit_within_one_pixel_witness :
  fitted_size (55, 600) = Ok (55, 600) \/
  fitted_size (55, 600) = Ok (55 - 1, 600) \/
  fitted_size (55, 600) = Ok (55, 600 - 1).
Proof.
  refine (proj2 (refit_within_one_pixel 56 601 55 600 _ _ _ _ _));
    try (vm_compute; split; reflexivity); vm_compute; reflexivity.
Defined.

(** C9 (idempotence of fitting), evaluated where it fails: 56 x 601 is
    fitted to 55 x 600, which is within the 800 x 600 bounds, and fitting
    55 x 600 changes it to 54 x 600, because [600 * (55 / 600)] is just under
    55 in floating point and [int()] cuts it to 54. *)
Theorem fitting_is_not_idempotent :
  fitted_size (56, 601) = Ok (55, 600) /\ fitted_size (55, 600) = Ok (54, 600).
Proof. split; vm_compute; reflexivity. Qed.

(** * The Working Image *)

Lemma resize_original_image_ok self self' :
  resize_original_image self = (Ok tt, self') ->
  original_image self' = original_image self /\
  display_image self' = display_image self /\
  exists p, resized_image self' = Some p /\
            made_from (original_image self) p /\
            fitted_size (size (original_image self)) = Ok (size p).
Proof.
  unfold resize_original_image, fitted_size.
  destruct (resize_dimensions _ _) as [[|sz]|e]; cbn [bind]; try discriminate.
  - intros [= <-]. cbn. repeat split. eexists. split; [reflexivity|].
    split; [left; reflexivity|reflexivity].
  - unfold PIL.resize. destruct (decide (size (original_image self) = sz)) as [Heq|Hne].
    + intros [= <-]. cbn. repeat split. eexists. split; [reflexivity|].
      split; [right; left; reflexivity|]. cbn. rewrite Heq. reflexivity.
    + destruct ((fst sz <? 1) || (snd sz <? 1)); [discriminate|].
      intros [= <-]. cbn. repeat split. eexists. split; [reflexivity|].
      split; [right; right; reflexivity|reflexivity].
Qed.

Lemma apply_image_edit_consistent self self' :
  valid_size (size (original_image self)) ->
  apply_image_edit self = (Ok tt, self') ->
  original_image self' = original_image self /\ preview_consistent self'.
Proof.
  intros Hv. unfold apply_image_edit.
  destruct (resize_original_image self) as [[[]|e] s] eqn:Hr; [|discriminate].
  intros [= <-].
  destruct (resize_original_image_ok _ _ Hr) as (Ho & _ & p & Hp & Hm & Hf).
  split; [exact Ho|]. exists p. cbn. rewrite Hp, Ho.
  repeat split; try assumption. apply fitted_size_aspect; assumption.
Qed.

(** An operation that returns leaves a consistent preview: when create,
    rotate or flip returns, the preview, which is also the displayed
    image, is made from the current canonical image, has the dimensions the
    fitter gives for the canonical dimensions, and keeps the aspect ratio
    up to one pixel. *)
Lemma preview_consistent_after_operation f :
  returned f -> preview_consistent f.
Proof.
  intros [disk path g Hi Hv|g g' Hv Hr|g g' Hv Hr].
  - unfold ImageFrame_init in Hi.
    destruct (PIL.open disk path) as [im|e]; cbn [bind] in Hi; [|discriminate].
    destruct (resize_original_image _) as [[[]|e] s] eqn:Hr; [|discriminate].
    injection Hi as <-.
    destruct (resize_original_image_ok _ _ Hr) as (Ho & _ & p & Hp & Hm & Hf).
    cbn in Ho, Hm, Hf, Hv. rewrite Ho in Hv.
    exists p. cbn. rewrite Hp, Ho. repeat split; try assumption.
    apply fitted_size_aspect; assumption.
  - unfold rotate in Hr. apply apply_image_edit_consistent in Hr; [apply Hr|].
    destruct Hv as [H1 H2]. split; cbn; assumption.
  - unfold flip in Hr. apply apply_image_edit_consistent in Hr; [apply Hr|].
    exact Hv.
Qed.

Lemma preview_consistent_after_operation_witness :
  preview_consistent (snd (rotate photo)).
Proof.
  apply preview_consistent_after_operation.
  apply (returned_rotate photo).
  - vm_compute. split; split; reflexivity.
  - vm_compute. reflexivity.
Defined.

(** C6 (no stale preview can be observed), evaluated where it fails: a
    700 x 1 strip is added and its rotate button pressed.  [rotate] first
    replaces the canonical image by the 1 x 700 rotation; the fitter then
    asks for a preview of 0 x 600, PIL refuses it, and the method stops
    with [ValueError].  The frame stays in the session with the new
    canonical image and the old 700 x 1 preview on display. *)
Theorem stale_preview_after_failed_rotate :
  fst (add_new_image disk_thin "thin.png" ControlFrame_init) = Ok tt /\
  fst (edit_frame rotate 0 session_thin) = Raise ValueError /\
  reachable session_thin_rotated /\
  exists f,
    frames session_thin_rotated = [f] /\
    original_image f = PIL.rotate90_expand thin /\
    size (original_image f) = (1, 700) /\
    resized_image f = Some thin /\ display_image f = Some thin /\
    fitted_size (size (original_image f)) = Ok (0, 600) /\
    ~ preview_consistent f.
Proof.
  split; [vm_compute; reflexivity|]. split; [vm_compute; reflexivity|]. split.
  - unfold session_thin_rotated, session_thin.
    apply reachable_rotate, reachable_add, reachable_init.
  - eexists. split; [vm_compute; reflexivity|]. cbn [original_image resized_image display_image].
    repeat (split; [vm_compute; reflexivity|]).
    intros (p & Hp & _ & _ & Hf & _). cbn [original_image resized_image] in Hp, Hf.
    injection Hp as <-. vm_compute in Hf. discriminate.
Qed.

(** C10: [rotate] swaps the width and the height of the canonical image,
    so four rotations give back the canonical dimensions. *)
Theorem rotate_swaps_dimensions f :
  size (original_image (snd (rotate f)))
    = (snd (size (original_image f)), fst (size (original_image f))) /\
  size (original_image (rotate_times 4 f)) = size (original_image f).
Proof.
  assert (Hstep : forall g, size (original_image (snd (rotate g)))
            = (snd (size (original_image g)), fst (size (original_image g)))).
  { intros g. unfold rotate, apply_image_edit, resize_original_image.
    destruct (resize_dimensions _ _) as [[|sz]|e]; cbn; try reflexivity.
    destruct (PIL.resize _ sz); reflexivity. }
  split; [apply Hstep|].
  unfold rotate_times, Nat.iter. cbn [nat_rect]. rewrite !Hstep. cbn [fst snd].
  destruct (size (original_image f)); reflexivity.
Qed.

(** * The collection and the export *)








(** A target in a directory that does not exist: the export stops with
    [FileNotFoundError] and the file system is as before. *)
Example export_to_missing_directory :
  save_as_pdf "reports/out.pdf" session_ABC disk_no_reports
    = (Raise (OSError ENOENT), disk_no_reports).
Proof. vm_compute. reflexivity. Qed.


Lemma reachable_save_disabled self :
  reachable self -> frames self = [] -> save_enabled self = false.
Proof.
  induction 1 as [|disk filename self Hr IH|i self Hr IH|i self Hr IH|i self Hr IH].
  - reflexivity.
  - unfold add_new_image, change_frame.
    destruct (ImageFrame_init disk filename) as [nf|e]; [|exact IH].
    cbn [frames selected_value buttons save_enabled raised].
    destruct (py_index _ _) as [[j g]|e]; cbn; intros He;
      destruct (frames self); discriminate.
  - unfold click_radio, change_frame.
    destruct (buttons self !! i); [|exact IH].
    cbn [frames selected_value buttons save_enabled raised].
    destruct (py_index _ _) as [[j g]|e]; cbn; exact IH.
  - unfold edit_frame. destruct (frames self !! i) as [f|] eqn:Hi; [|exact IH].
    cbn. intros He. apply (f_equal length) in He.
    rewrite length_insert in He. destruct (frames self); [discriminate Hi|discriminate He].
  - unfold edit_frame. destruct (frames self !! i) as [f|] eqn:Hi; [|exact IH].
    cbn. intros He. apply (f_equal length) in He.
    rewrite length_insert in He. destruct (frames self); [discriminate Hi|discriminate He].
Qed.

(** C7, as the code has it: while the collection is empty the save button
    is disabled; if [save_as_pdf] runs all the same, no file is written: it
    returns silently when the dialog is cancelled and stops with the
    [IndexError] of [images[0]] once a path is chosen. *)
Theorem export_on_empty_collection directory self fs :
  reachable self -> frames self = [] ->
  save_enabled self = false /\
  save_as_pdf directory self fs
    = (if decide (directory = EmptyString) then Ok tt else Raise IndexError, fs).
Proof.
  intros Hr Hf. split; [apply reachable_save_disabled; assumption|].
  unfold save_as_pdf. destruct (decide (directory = EmptyString)); [reflexivity|].
  rewrite Hf. reflexivity.
Qed.

Lemma export_on_empty_collection_witness :
  save_enabled ControlFrame_init = false /\
  save_as_pdf "out.pdf" ControlFrame_init disk_ABC
    = (if decide ("out.pdf" = EmptyString) then Ok tt else Raise IndexError, disk_ABC).
Proof.
  apply (export_on_empty_collection "out.pdf" ControlFrame_init disk_ABC).
  - apply reachable_init.
  - reflexivity.
Defined.

(** C7 as stated fails: on an empty collection a cancelled dialog makes
    [save_as_pdf] return without any error, and with a path the exception
    is the list's [IndexError]. *)
Lemma export_empty_outcomes :
  save_as_pdf EmptyString ControlFrame_init disk_ABC = (Ok tt, disk_ABC) /\
  save_as_pdf "out.pdf" ControlFrame_init disk_ABC = (Raise IndexError, disk_ABC).
Proof. split; reflexivity. Qed.

(** C8, as the code has it: a successful [add_new_image] on a collection of
    [n] frames appends the new frame at the end, at index [n], and creates
    the radio button of value [n]; it returns nothing. *)
Theorem add_appends_at_end disk filename self self' :
  add_new_image disk filename self = (Ok tt, self') ->
  exists new_frame,
    ImageFrame_init disk filename = Ok new_frame /\
    frames self' = frames self ++ [new_frame] /\
    frames self' !! length (frames self) = Some new_frame /\
    buttons self' = buttons self ++ [Z.of_nat (length (buttons self))].
Proof.
  unfold add_new_image, change_frame.
  destruct (ImageFrame_init disk filename) as [nf|e]; [|discriminate].
  cbn [frames selected_value buttons save_enabled raised].
  destruct (py_index _ _) as [[i g]|e]; [|discriminate].
  intros [= <-]. cbn. exists nf. repeat split.
  rewrite lookup_app_r by lia. rewrite Nat.sub_diag. reflexivity.
Qed.

Lemma add_appends_at_end_witness :
  exists new_frame,
    ImageFrame_init disk_ABC "b.png" = Ok new_frame /\
    frames (snd (add_new_image disk_ABC "b.png" session_A))
      = frames session_A ++ [new_frame] /\
    frames (snd (add_new_image disk_ABC "b.png" session_A))
      !! length (frames session_A) = Some new_frame /\
    buttons (snd (add_new_image disk_ABC "b.png" session_A))
      = buttons session_A ++ [Z.of_nat (length (buttons session_A))].
Proof.
  apply (add_appends_at_end disk_ABC "b.png" session_A).
  vm_compute. reflexivity.
Defined.

(** C8 as stated fails: adding a second image to a collection of one
    succeeds, and the selected index is still 0, not the new index 1; the
    frame raised is frame 0. *)
Lemma add_leaves_selection :
  fst (add_new_image disk_ABC "b.png" session_A) = Ok tt /\
  length (frames session_A) = 1%nat /\
  selected_value (snd (add_new_image disk_ABC "b.png" session_A)) = 0 /\
  raised (snd (add_new_image disk_ABC "b.png" session_A)) = Some 0%nat.
Proof. vm_compute. repeat split; reflexivity. Qed.

(** * Further properties of the fitter *)

Lemma not_both_below w h :
  (w <? 800) && (h <? 600) = false -> 800 <= w \/ 600 <= h.
Proof. intros H. apply andb_false_iff in H. lia. Qed.

(** X1: the preview of a valid size always fits the 800 x 600 box, in
    either orientation, and is never larger than the image. *)
Theorem fitted_size_in_box sz :
  valid_size sz ->
  exists a b, fitted_size sz = Ok (a, b) /\
              0 <= a <= 800 /\ 0 <= b <= 600 /\ a <= fst sz /\ b <= snd sz.
Proof.
  destruct sz as [w h]. intros [Hw Hh]. cbn [fst snd] in *.
  unfold fitted_size. cbn [fst snd].
  destruct ((w <? 800) && (h <? 600)) eqn:Hn.
  - rewrite (resize_dimensions_unchanged w h Hw Hh Hn). cbn [bind].
    apply andb_true_iff in Hn. exists w, h. split; [reflexivity|lia].
  - destruct (resize_dimensions_scaled w h Hw Hh Hn) as (lr & hr & -> & Hb).
    cbn [bind]. exists lr, hr. split; [reflexivity|].
    apply not_both_below in Hn.
    destruct Hb as [(H1 & H2 & H3)|(H1 & H2 & H3)].
    + assert (800 <= w) by lia.
      assert (0 <= hr) by nia. assert (hr < 600) by nia. assert (hr <= h) by nia. lia.
    + assert (600 <= h) by lia.
      assert (0 <= lr) by nia. assert (lr <= 800) by nia. assert (lr <= w) by nia. lia.
Qed.

Lemma fitted_size_in_box_witness :
  exists a b, fitted_size (1080, 1920) = Ok (a, b) /\
              0 <= a <= 800 /\ 0 <= b <= 600 /\ a <= fst (1080, 1920) /\ b <= snd (1080, 1920).
Proof. apply (fitted_size_in_box (1080, 1920)). vm_compute. split; split; reflexivity. Defined.

(** X2: when a valid size is scaled, the constraining axis comes out at its
    bound or one pixel under it (800 or 799 wide when [w / 800 > h / 600],
    600 or 599 high otherwise), and the other axis is the exact proportional
    value rounded down, or one pixel less. *)
Theorem scaled_size_touches_box w h :
  0 < w < 2 ^ 31 -> 0 < h < 2 ^ 31 -> (w <? 800) && (h <? 600) = false ->
  exists a b,
    fitted_size (w, h) = Ok (a, b) /\
    ((4 * h < 3 * w /\ 799 <= a <= 800 /\ a * h - w <= b * w <= a * h) \/
     (3 * w <= 4 * h /\ 599 <= b <= 600 /\ b * w - h <= a * h <= b * w)).
Proof.
  intros Hw Hh Hn. unfold fitted_size. cbn [fst snd].
  destruct (resize_dimensions_scaled w h Hw Hh Hn) as (lr & hr & -> & Hb).
  cbn [bind]. exists lr, hr. split; [reflexivity|exact Hb].
Qed.

Lemma scaled_size_touches_box_witness :
  exists a b,
    fitted_size (4000, 3000) = Ok (a, b) /\
    ((4 * 3000 < 3 * 4000 /\ 799 <= a <= 800 /\ a * 3000 - 4000 <= b * 4000 <= a * 3000) \/
     (3 * 4000 <= 4 * 3000 /\ 599 <= b <= 600 /\ b * 4000 - 3000 <= a * 3000 <= b * 4000)).
Proof.
  apply (scaled_size_touches_box 4000 3000);
    try (vm_compute; split; reflexivity); reflexivity.
Defined.

Lemma positive_dimensions w h :
  0 < w < 2 ^ 31 -> 0 < h < 2 ^ 31 -> w < 799 * h -> h < 599 * w ->
  exists a b, fitted_size (w, h) = Ok (a, b) /\ 0 < a /\ 0 < b.
Proof.
  intros Hw Hh Hr1 Hr2. unfold fitted_size. cbn [fst snd].
  destruct ((w <? 800) && (h <? 600)) eqn:Hn.
  - rewrite (resize_dimensions_unchanged w h Hw Hh Hn). cbn [bind].
    exists w, h. split; [reflexivity|lia].
  - destruct (resize_dimensions_scaled w h Hw Hh Hn) as (lr & hr & -> & Hb).
    cbn [bind]. exists lr, hr. split; [reflexivity|].
    destruct Hb as [(H1 & H2 & H3)|(H1 & H2 & H3)]; nia.
Qed.

(** X3: the fitted dimensions of a valid size are both positive as long as
    the image is less than 799 times as wide as high and less than 599
    times as high as wide. *)
Theorem fitted_size_positive w h :
  0 < w < 2 ^ 31 -> 0 < h < 2 ^ 31 -> w < 799 * h -> h < 599 * w ->
  exists a b, fitted_size (w, h) = Ok (a, b) /\ 0 < a /\ 0 < b.
Proof. exact (positive_dimensions w h). Qed.

Lemma fitted_size_positive_witness :
  exists a b, fitted_size (10000, 13) = Ok (a, b) /\ 0 < a /\ 0 < b.
Proof.
  apply (fitted_size_positive 10000 13);
    try (vm_compute; split; reflexivity); reflexivity.
Defined.

(** * Further properties of the Working Image *)

(** On a valid canonical size the preview step has two outcomes: with a
    positive fitted size it stores a preview of that size, with a zero in
    the fitted size PIL's [ValueError] comes out and nothing is stored. *)
Lemma resize_original_image_outcome self :
  valid_size (size (original_image self)) ->
  exists a b,
    fitted_size (size (original_image self)) = Ok (a, b) /\ 0 <= a /\ 0 <= b /\
    (0 < a -> 0 < b ->
     exists p, resize_original_image self = (Ok tt, set_resized self p) /\
               size p = (a, b) /\ made_from (original_image self) p) /\
    (a = 0 \/ b = 0 -> resize_original_image self = (Raise ValueError, self)).
Proof.
  intros Hv. destruct (fitted_size_total _ Hv) as (a & b & Hf & Ha & Hb).
  exists a, b. split; [exact Hf|]. split; [exact Ha|]. split; [exact Hb|].
  unfold resize_original_image. unfold fitted_size in Hf.
  destruct Hv as [Hw Hh].
  destruct (resize_dimensions _ _) as [[|sz]|e]; cbn [bind] in Hf; [| |discriminate].
  - injection Hf as Hs. split.
    + intros _ _. exists (original_image self). repeat split; [exact Hs|].
      left. reflexivity.
    + intros Hz. rewrite Hs in Hw, Hh. cbn [fst snd] in *. lia.
  - injection Hf as ->. unfold PIL.resize.
    destruct (decide (size (original_image self) = (a, b))) as [Heq|Hne].
    + split.
      * intros _ _. exists (PIL.copy (original_image self)). repeat split; [exact Heq|].
        right. left. reflexivity.
      * intros Hz. rewrite Heq in Hw, Hh. cbn [fst snd] in *. lia.
    + cbn [fst snd]. split.
      * intros Ha' Hb'.
        replace ((a <? 1) || (b <? 1)) with false
          by (symmetry; apply orb_false_iff; split; apply Z.ltb_ge; lia).
        eexists. repeat split. right. right. reflexivity.
      * intros Hz.
        replace ((a <? 1) || (b <? 1)) with true; [reflexivity|].
        symmetry. apply orb_true_iff. destruct Hz; [left|right]; apply Z.ltb_lt; lia.
Qed.

Lemma apply_image_edit_outcome self :
  valid_size (size (original_image self)) ->
  exists a b,
    fitted_size (size (original_image self)) = Ok (a, b) /\ 0 <= a /\ 0 <= b /\
    (0 < a -> 0 < b ->
     exists p, apply_image_edit self
                 = (Ok tt, {| original_image := original_image self;
                              resized_image := Some p; display_image := Some p |}) /\
               size p = (a, b) /\ made_from (original_image self) p) /\
    (a = 0 \/ b = 0 -> apply_image_edit self = (Raise ValueError, self)).
Proof.
  intros Hv.
  destruct (resize_original_image_outcome self Hv) as (a & b & Hf & Ha & Hb & Hok & Hbad).
  exists a, b. repeat (split; [assumption|]). unfold apply_image_edit. split.
  - intros Ha' Hb'. destruct (Hok Ha' Hb') as (p & -> & Hs & Hm).
    exists p. repeat split; assumption.
  - intros Hz. rewrite (Hbad Hz). reflexivity.
Qed.

(** [open] gives the image of an image file of valid size that is not
    beyond twice [MAX_IMAGE_PIXELS], and nothing but the image of an image
    file. *)
Lemma open_image_file disk path im :
  files disk !! path = Some (ImageFile im) -> valid_size (size im) ->
  fst (size im) * snd (size im) <= 2 * PIL.MAX_IMAGE_PIXELS ->
  PIL.open disk path = Ok im.
Proof.
  intros Hd [Hw Hh] Hp. unfold PIL.open. rewrite Hd.
  rewrite !Z.max_r by lia.
  replace (2 * PIL.MAX_IMAGE_PIXELS <? fst (size im) * snd (size im)) with false;
    [reflexivity|].
  symmetry. apply Z.ltb_ge. exact Hp.
Qed.


(** A PNG of 20000 x 10000 pixels is beyond the limit: the frame is not
    constructed. *)
Example huge_image_is_refused :
  ImageFrame_init
    (disk_of (<["huge.png" := ImageFile (rgb_image (20000, 10000) "huge.png")]> empty))
    "huge.png" = Raise DecompressionBombError.
Proof. vm_compute. reflexivity. Qed.

(** X4: an image file under both thresholds is loaded as it is: the preview
    and the displayed image are the canonical image itself. *)
Theorem small_image_loads_unchanged disk path im :
  files disk !! path = Some (ImageFile im) -> valid_size (size im) ->
  fst (size im) < 800 -> snd (size im) < 600 ->
  ImageFrame_init disk path
    = Ok {| original_image := im; resized_image := Some im; display_image := Some im |}.
Proof.
  intros Hd Hv H8 H6. unfold ImageFrame_init.
  rewrite (open_image_file disk path im Hd Hv)
    by (destruct Hv; unfold PIL.MAX_IMAGE_PIXELS; nia).
  destruct Hv as [Hw Hh]. cbn [bind].
  unfold resize_original_image. cbn [original_image].
  rewrite resize_dimensions_unchanged; [reflexivity|assumption|assumption|].
  apply andb_true_iff. split; apply Z.ltb_lt; assumption.
Qed.

Lemma small_image_loads_unchanged_witness :
  ImageFrame_init disk_ABC "a.png"
    = Ok {| original_image := rgb_image (500, 300) "a.png";
            resized_image := Some (rgb_image (500, 300) "a.png");
            display_image := Some (rgb_image (500, 300) "a.png") |}.
Proof.
  apply (small_image_loads_unchanged disk_ABC "a.png");
    try (vm_compute; reflexivity). vm_compute. split; split; reflexivity.
Defined.

(** X5: an image file of valid size, with no more pixels than twice
    [MAX_IMAGE_PIXELS], that is less than 799 times as wide as high and
    less than 599 times as high as wide always loads: the canonical image
    is the decoded file, and the preview, which is also the displayed
    image, is made from it with the fitted, positive size. *)
Theorem image_loads disk path im :
  files disk !! path = Some (ImageFile im) -> valid_size (size im) ->
  fst (size im) * snd (size im) <= 2 * PIL.MAX_IMAGE_PIXELS ->
  fst (size im) < 799 * snd (size im) -> snd (size im) < 599 * fst (size im) ->
  exists p,
    ImageFrame_init disk path
      = Ok {| original_image := im; resized_image := Some p; display_image := Some p |} /\
    made_from im p /\ fitted_size (size im) = Ok (size p) /\
    0 < fst (size p) /\ 0 < snd (size p).
Proof.
  intros Hd Hv Hpx H1 H2. unfold ImageFrame_init.
  rewrite (open_image_file disk path im Hd Hv Hpx). cbn [bind].
  set (self := {| original_image := im; resized_image := None; display_image := None |}).
  destruct (resize_original_image_outcome self Hv) as (a & b & Hf & _ & _ & Hok & _).
  cbn [original_image self] in Hf.
  destruct (size im) as [w h] eqn:Hs. cbn [fst snd] in *.
  destruct (positive_dimensions w h (proj1 Hv) (proj2 Hv) H1 H2) as (a' & b' & Hf' & Ha & Hb).
  rewrite Hf in Hf'. injection Hf' as <- <-.
  destruct (Hok Ha Hb) as (p & -> & Hp & Hm).
  exists p. split; [reflexivity|]. split; [exact Hm|]. rewrite Hp. cbn [fst snd]. auto.
Qed.

Lemma image_loads_witness :
  exists p,
    ImageFrame_init disk_ABC "c.png"
      = Ok {| original_image := rgb_image (800, 800) "c.png";
              resized_image := Some p; display_image := Some p |} /\
    made_from (rgb_image (800, 800) "c.png") p /\
    fitted_size (size (rgb_image (800, 800) "c.png")) = Ok (size p) /\
    0 < fst (size p) /\ 0 < snd (size p).
Proof.
  apply (image_loads disk_ABC "c.png").
  - vm_compute. reflexivity.
  - vm_compute. split; split; reflexivity.
  - vm_compute. discriminate.
  - vm_compute. reflexivity.
  - vm_compute. reflexivity.
Defined.

(** X6: on a valid canonical image of moderate ratio [rotate] and [flip]
    both return, with the canonical image rotated or mirrored, and the new
    canonical size is again valid and of moderate ratio, so that any
    sequence of edits goes through. *)
Theorem edits_succeed f :
  valid_size (size (original_image f)) -> moderate_ratio (size (original_image f)) ->
  exists f1 f2,
    rotate f = (Ok tt, f1) /\ flip f = (Ok tt, f2) /\
    original_image f1 = PIL.rotate90_expand (original_image f) /\
    original_image f2 = PIL.mirror (original_image f) /\
    valid_size (size (original_image f1)) /\ moderate_ratio (size (original_image f1)) /\
    valid_size (size (original_image f2)) /\ moderate_ratio (size (original_image f2)).
Proof.
  intros [Hw Hh] [H1 H2].
  assert (Hstep : forall g, valid_size (size (original_image g)) ->
            moderate_ratio (size (original_image g)) ->
            exists g', apply_image_edit g = (Ok tt, g') /\
                       original_image g' = original_image g).
  { intros g Hv [M1 M2].
    destruct (apply_image_edit_outcome g Hv) as (a & b & Hf & _ & _ & Hok & _).
    destruct (size (original_image g)) as [w h] eqn:Hs. cbn [fst snd] in *.
    destruct (positive_dimensions w h (proj1 Hv) (proj2 Hv) ltac:(lia) M2)
      as (a' & b' & Hf' & Ha & Hb).
    rewrite Hf in Hf'. injection Hf' as <- <-.
    destruct (Hok Ha Hb) as (p & -> & _). eexists. split; reflexivity. }
  destruct (Hstep (set_original f (PIL.rotate90_expand (original_image f))))
    as (f1 & Hr & Ho1); [split; cbn; assumption|split; cbn; assumption|].
  destruct (Hstep (set_original f (PIL.mirror (original_image f))))
    as (f2 & Hfl & Ho2); [split; cbn; assumption|split; cbn; assumption|].
  exists f1, f2. unfold rotate, flip. rewrite Hr, Hfl, Ho1, Ho2.
  unfold valid_size, moderate_ratio. cbn. repeat split; try reflexivity; lia.
Qed.

Lemma edits_succeed_witness :
  exists f1 f2,
    rotate photo = (Ok tt, f1) /\ flip photo = (Ok tt, f2) /\
    original_image f1 = PIL.rotate90_expand (original_image photo) /\
    original_image f2 = PIL.mirror (original_image photo) /\
    valid_size (size (original_image f1)) /\ moderate_ratio (size (original_image f1)) /\
    valid_size (size (original_image f2)) /\ moderate_ratio (size (original_image f2)).
Proof.
  apply (edits_succeed photo); vm_compute; split; try split; reflexivity.
Defined.

(** X7: on a valid canonical image an edit can only fail in one way.  If
    [rotate] or [flip] raises, the exception is PIL's [ValueError] for a
    zero preview dimension; the canonical image has already been replaced,
    and the preview and the displayed image are still the old ones. *)
Theorem failed_edit_state f e f' :
  valid_size (size (original_image f)) ->
  rotate f = (Raise e, f') \/ flip f = (Raise e, f') ->
  e = ValueError /\
  (original_image f' = PIL.rotate90_expand (original_image f) \/
   original_image f' = PIL.mirror (original_image f)) /\
  resized_image f' = resized_image f /\ display_image f' = display_image f /\
  exists a b, fitted_size (size (original_image f')) = Ok (a, b) /\ (a = 0 \/ b = 0).
Proof.
  intros [Hw Hh] Hop.
  assert (Hstep : forall g, valid_size (size (original_image g)) ->
            apply_image_edit g = (Raise e, f') ->
            e = ValueError /\ f' = g /\
            exists a b, fitted_size (size (original_image g)) = Ok (a, b) /\
                        (a = 0 \/ b = 0)).
  { intros g Hv He.
    destruct (apply_image_edit_outcome g Hv) as (a & b & Hf & Ha & Hb & Hok & Hbad).
    destruct (Z.eq_dec a 0) as [Ha0|Ha0]; [|destruct (Z.eq_dec b 0) as [Hb0|Hb0]].
    - rewrite (Hbad (or_introl Ha0)) in He. injection He as <- <-.
      repeat split. exists a, b. auto.
    - rewrite (Hbad (or_intror Hb0)) in He. injection He as <- <-.
      repeat split. exists a, b. auto.
    - destruct (Hok ltac:(lia) ltac:(lia)) as (p & Hp & _). rewrite Hp in He. discriminate. }
  destruct Hop as [Hr|Hfl].
  - unfold rotate in Hr. apply Hstep in Hr; [|split; cbn; assumption].
    destruct Hr as (-> & -> & Hz). cbn. repeat split; auto.
  - unfold flip in Hfl. apply Hstep in Hfl; [|split; cbn; assumption].
    destruct Hfl as (-> & -> & Hz). cbn. repeat split; auto.
Qed.

Lemma failed_edit_state_witness :
  let f := {| original_image := thin; resized_image := Some thin;
              display_image := Some thin |} in
  let f' := {| original_image := PIL.rotate90_expand thin; resized_image := Some thin;
               display_image := Some thin |} in
  ValueError = ValueError /\
  (original_image f' = PIL.rotate90_expand (original_image f) \/
   original_image f' = PIL.mirror (original_image f)) /\
  resized_image f' = resized_image f /\ display_image f' = display_image f /\
  exists a b, fitted_size (size (original_image f')) = Ok (a, b) /\ (a = 0 \/ b = 0).
Proof.
  cbv zeta.
  refine (failed_edit_state _ ValueError _ _ _).
  - vm_compute. split; split; reflexivity.
  - left. vm_compute. reflexivity.
Defined.

Lemma apply_image_edit_returns g f :
  valid_size (size (original_image g)) ->
  apply_image_edit g = (Ok tt, f) ->
  exists p,
    f = {| original_image := original_image g;
           resized_image := Some p; display_image := Some p |} /\
    fitted_size (size (original_image g)) = Ok (size p) /\
    0 < fst (size p) /\ 0 < snd (size p).
Proof.
  intros Hv He.
  destruct (apply_image_edit_outcome g Hv) as (a & b & Hf & Ha & Hb & Hok & Hbad).
  destruct (Z.eq_dec a 0) as [Ha0|Ha0]; [|destruct (Z.eq_dec b 0) as [Hb0|Hb0]].
  - rewrite (Hbad (or_introl Ha0)) in He. discriminate.
  - rewrite (Hbad (or_intror Hb0)) in He. discriminate.
  - destruct (Hok ltac:(lia) ltac:(lia)) as (p & Hp & Hs & _).
    rewrite Hp in He. injection He as <-. exists p.
    rewrite Hs. cbn [fst snd]. repeat split; [exact Hf|lia|lia].
Qed.

Lemma returned_preview f :
  returned f ->
  valid_size (size (original_image f)) /\
  exists p, resized_image f = Some p /\ display_image f = Some p /\
            fitted_size (size (original_image f)) = Ok (size p) /\
            0 < fst (size p) /\ 0 < snd (size p).
Proof.
  intros [disk path g Hi Hv|g g' Hv Hr|g g' Hv Hr].
  - split; [exact Hv|]. unfold ImageFrame_init in Hi.
    destruct (PIL.open disk path) as [im|e]; cbn [bind] in Hi; [|discriminate].
    set (self := {| original_image := im; resized_image := None; display_image := None |}) in *.
    assert (He : apply_image_edit self = (Ok tt, g)).
    { unfold apply_image_edit. destruct (resize_original_image self) as [[[]|e] s];
        [|discriminate]. injection Hi as <-. reflexivity. }
    assert (Hvs : valid_size (size (original_image self))).
    { unfold apply_image_edit in He.
      destruct (resize_original_image self) as [[[]|e] s] eqn:Hr; [|discriminate].
      injection He as <-. destruct (resize_original_image_ok _ _ Hr) as (Ho & _).
      cbn in Hv. rewrite Ho in Hv. exact Hv. }
    destruct (apply_image_edit_returns _ _ Hvs He) as (p & -> & Hf & Hpos).
    exists p. cbn. auto.
  - unfold rotate in Hr.
    assert (Hvs : valid_size (size (original_image
              (set_original g (PIL.rotate90_expand (original_image g))))))
      by (destruct Hv; split; cbn; assumption).
    destruct (apply_image_edit_returns _ _ Hvs Hr) as (p & -> & Hf & Hpos).
    split; [exact Hvs|]. exists p. cbn. auto.
  - unfold flip in Hr.
    assert (Hvs : valid_size (size (original_image
              (set_original g (PIL.mirror (original_image g)))))) by exact Hv.
    destruct (apply_image_edit_returns _ _ Hvs Hr) as (p & -> & Hf & Hpos).
    split; [exact Hvs|]. exists p. cbn. auto.
Qed.

(** X8: [flip] never fails on a Working Image that an operation has
    returned: it returns, the canonical image is the mirror image with the
    same dimensions, and the new preview has the size of the old one. *)
Theorem flip_after_return f :
  returned f ->
  exists p f' p',
    resized_image f = Some p /\ flip f = (Ok tt, f') /\
    f' = {| original_image := PIL.mirror (original_image f);
            resized_image := Some p'; display_image := Some p' |} /\
    size p' = size p /\ returned f'.
Proof.
  intros Hr. destruct (returned_preview f Hr) as (Hv & p & Hp & _ & Hf & Ha & Hb).
  set (g := set_original f (PIL.mirror (original_image f))).
  assert (Hvg : valid_size (size (original_image g))) by exact Hv.
  destruct (apply_image_edit_outcome g Hvg) as (a & b & Hf' & _ & _ & Hok & _).
  change (size (original_image g)) with (size (original_image f)) in Hf'.
  rewrite Hf in Hf'. injection Hf' as Hs.
  assert (Ha' : 0 < a) by (rewrite Hs in Ha; exact Ha).
  assert (Hb' : 0 < b) by (rewrite Hs in Hb; exact Hb).
  destruct (Hok Ha' Hb') as (p' & He & Hs' & _).
  eexists p, _, p'. split; [exact Hp|]. split; [exact He|]. split; [reflexivity|].
  split; [rewrite Hs', Hs; reflexivity|].
  apply (returned_flip f); [exact Hv|exact He].
Qed.

Lemma flip_after_return_witness :
  exists p f' p',
    resized_image (snd (rotate photo)) = Some p /\
    flip (snd (rotate photo)) = (Ok tt, f') /\
    f' = {| original_image := PIL.mirror (original_image (snd (rotate photo)));
            resized_image := Some p'; display_image := Some p' |} /\
    size p' = size p /\ returned f'.
Proof.
  apply flip_after_return. apply (returned_rotate photo).
  - vm_compute. split; split; reflexivity.
  - vm_compute. reflexivity.
Defined.

(** * Further properties of the collection *)

Lemma py_index_in_range {A : Type} (l : list A) (i : Z) :
  0 <= i < Z.of_nat (length l) ->
  exists a, l !! Z.to_nat i = Some a /\ py_index l i = Ok (Z.to_nat i, a).
Proof.
  intros Hi. destruct (lookup_lt_is_Some_2 l (Z.to_nat i) ltac:(lia)) as [a Ha].
  exists a. split; [exact Ha|]. unfold py_index. cbv zeta.
  assert (H : (i <? 0) = false) by (apply Z.ltb_ge; lia).
  rewrite H. rewrite H, Ha. reflexivity.
Qed.

Lemma numbered_buttons_lookup (n i : nat) (v : Z) :
  map Z.of_nat (seq 0 n) !! i = Some v -> v = Z.of_nat i /\ (i < n)%nat.
Proof.
  rewrite list_lookup_fmap. destruct (seq 0 n !! i) as [j|] eqn:Hj; [|discriminate].
  apply lookup_seq in Hj. destruct Hj as [-> Hlt]. intros [= <-]. auto.
Qed.

Lemma session_invariant_add disk filename self nf :
  session_invariant self -> ImageFrame_init disk filename = Ok nf ->
  add_new_image disk filename self
    = (Ok tt, {| selected_value := selected_value self;
                 buttons := buttons self ++ [Z.of_nat (length (frames self))];
                 frames := frames self ++ [nf];
                 save_enabled := true;
                 raised := Some (Z.to_nat (selected_value self)) |}).
Proof.
  intros (Hb & Hs & Hne & He) Hi. unfold add_new_image, change_frame. rewrite Hi.
  cbn [frames selected_value buttons save_enabled raised].
  assert (Hlen : length (buttons self) = length (frames self))
    by (rewrite Hb, length_map, length_seq; reflexivity).
  destruct (py_index_in_range (frames self ++ [nf]) (selected_value self)) as (a & _ & ->).
  { rewrite length_app. cbn [length]. split; [exact Hs|].
    destruct (frames self) as [|f l] eqn:Hf.
    - destruct (He eq_refl) as (-> & _). cbn. lia.
    - destruct (Hne ltac:(discriminate)) as (Hlt & _). cbn [length] in *. lia. }
  cbn. rewrite Hlen. reflexivity.
Qed.

Lemma session_invariant_reachable self :
  reachable self -> session_invariant self.
Proof.
  induction 1 as [|disk filename self Hr IH|i self Hr IH|i self Hr IH|i self Hr IH].
  - split; [reflexivity|]. split; [reflexivity|]. split.
    + intros Hn. exfalso. apply Hn. reflexivity.
    + intros _. repeat split.
  - destruct (ImageFrame_init disk filename) as [nf|e] eqn:Hi.
    + rewrite (session_invariant_add disk filename self nf IH Hi). cbn [snd].
      destruct IH as (Hb & Hs & Hne & He).
      unfold session_invariant. cbn [frames selected_value buttons save_enabled raised].
      split.
      { rewrite length_app. cbn [length]. rewrite Nat.add_1_r, seq_S, map_app, <- Hb.
        reflexivity. }
      split; [exact Hs|]. split.
      * intros _. split; [|auto]. rewrite length_app. cbn [length].
        destruct (frames self) as [|f l] eqn:Hf.
        -- destruct (He eq_refl) as (-> & _). cbn. lia.
        -- destruct (Hne ltac:(discriminate)) as (Hlt & _). cbn [length] in *. lia.
      * intros Hnil. destruct (frames self); discriminate.
    + unfold add_new_image. rewrite Hi. exact IH.
  - unfold click_radio. destruct (buttons self !! i) as [v|] eqn:Hv; [|exact IH].
    destruct IH as (Hb & Hs & Hne & He).
    rewrite Hb in Hv. apply numbered_buttons_lookup in Hv. destruct Hv as [-> Hlt].
    unfold change_frame. cbn [frames selected_value buttons save_enabled raised].
    destruct (py_index_in_range (frames self) (Z.of_nat i)) as (a & _ & ->); [lia|].
    cbn [snd]. unfold session_invariant.
    cbn [frames selected_value buttons save_enabled raised].
    assert (Hnn : frames self <> []) by (intros Hn; rewrite Hn in Hlt; cbn in Hlt; lia).
    split; [exact Hb|]. split; [lia|]. split.
    + intros _. split; [lia|]. split; [reflexivity|]. apply Hne. exact Hnn.
    + intros Hn. contradiction.
  - unfold edit_frame. destruct (frames self !! i) as [f|] eqn:Hi; [|exact IH].
    destruct IH as (Hb & Hs & Hne & He). cbn [snd]. unfold session_invariant.
    cbn [frames selected_value buttons save_enabled raised]. rewrite length_insert.
    assert (Hnn : frames self <> []) by (intros Hn; rewrite Hn in Hi; discriminate).
    split; [exact Hb|]. split; [exact Hs|]. split.
    + intros _. apply Hne. exact Hnn.
    + intros Hn. apply (f_equal length) in Hn. rewrite length_insert in Hn.
      destruct (frames self); [contradiction|discriminate].
  - unfold edit_frame. destruct (frames self !! i) as [f|] eqn:Hi; [|exact IH].
    destruct IH as (Hb & Hs & Hne & He). cbn [snd]. unfold session_invariant.
    cbn [frames selected_value buttons save_enabled raised]. rewrite length_insert.
    assert (Hnn : frames self <> []) by (intros Hn; rewrite Hn in Hi; discriminate).
    split; [exact Hb|]. split; [exact Hs|]. split.
    + intros _. apply Hne. exact Hnn.
    + intros Hn. apply (f_equal length) in Hn. rewrite length_insert in Hn.
      destruct (frames self); [contradiction|discriminate].
Qed.

(** X9: in every state of a session, the radio buttons carry the values
    0, 1, ... in order, one per frame; the selection is an index of the
    collection; and once there is a frame, the frame last raised is the
    selected one and the save button is enabled. *)
Theorem reachable_session_invariant self :
  reachable self -> session_invariant self.
Proof. exact (session_invariant_reachable self). Qed.

Lemma reachable_session_invariant_witness : session_invariant session_ABC.
Proof.
  apply reachable_session_invariant.
  unfold session_ABC, session_A. repeat apply reachable_add. apply reachable_init.
Defined.

(** X10: in a session [add_new_image] succeeds whenever the image frame
    can be constructed.  It appends the frame and a radio button carrying
    the new index, enables the save button, and leaves the selection where
    it was: the frame raised is the one selected before, not the new one
    (unless it is the first). *)
Theorem add_in_session disk filename self new_frame :
  reachable self -> ImageFrame_init disk filename = Ok new_frame ->
  add_new_image disk filename self
    = (Ok tt, {| selected_value := selected_value self;
                 buttons := buttons self ++ [Z.of_nat (length (frames self))];
                 frames := frames self ++ [new_frame];
                 save_enabled := true;
                 raised := Some (Z.to_nat (selected_value self)) |}).
Proof.
  intros Hr Hi. apply session_invariant_add; [|exact Hi].
  apply session_invariant_reachable. exact Hr.
Qed.

Lemma add_in_session_witness :
  add_new_image disk_ABC "b.png" session_A
    = (Ok tt, {| selected_value := selected_value session_A;
                 buttons := buttons session_A ++ [Z.of_nat (length (frames session_A))];
                 frames := frames session_A
                   ++ [ {| original_image := rgb_image (300, 500) "b.png";
                           resized_image := Some (rgb_image (300, 500) "b.png");
                           display_image := Some (rgb_image (300, 500) "b.png") |} ];
                 save_enabled := true;
                 raised := Some (Z.to_nat (selected_value session_A)) |}).
Proof.
  apply (add_in_session disk_ABC "b.png" session_A).
  - unfold session_A. apply reachable_add. apply reachable_init.
  - vm_compute. reflexivity.
Defined.



(** X12: in a session, pressing radio button [i] of an existing frame
    selects index [i] and raises frame [i], without error and without
    touching the collection; there is no button beyond the last frame. *)
Theorem click_selects_frame i self :
  reachable self -> (i < length (frames self))%nat ->
  click_radio i self
    = (Ok tt, {| selected_value := Z.of_nat i; buttons := buttons self;
                 frames := frames self; save_enabled := true;
                 raised := Some i |}) /\
  buttons self !! length (frames self) = None.
Proof.
  intros Hr Hi. destruct (session_invariant_reachable self Hr) as (Hb & Hs & Hne & He).
  assert (Hnn : frames self <> []) by (intros Hn; rewrite Hn in Hi; cbn in Hi; lia).
  destruct (Hne Hnn) as (_ & _ & Hsave). split.
  - unfold click_radio. rewrite Hb, list_lookup_fmap, lookup_seq_lt by exact Hi.
    cbn [fmap option_fmap option_map]. unfold change_frame.
    cbn [frames selected_value buttons save_enabled raised].
    destruct (py_index_in_range (frames self) (Z.of_nat (0 + i))) as (a & _ & ->); [lia|].
    rewrite Hsave, <- Hb. cbn [Nat.add]. rewrite Nat2Z.id. reflexivity.
  - rewrite Hb, list_lookup_fmap, lookup_seq_ge by lia. reflexivity.
Qed.

Lemma click_selects_frame_witness :
  click_radio 2 session_ABC
    = (Ok tt, {| selected_value := Z.of_nat 2; buttons := buttons session_ABC;
                 frames := frames session_ABC; save_enabled := true;
                 raised := Some 2%nat |}) /\
  buttons session_ABC !! length (frames session_ABC) = None.
Proof.
  apply (click_selects_frame 2 session_ABC).
  - unfold session_ABC, session_A. repeat apply reachable_add. apply reachable_init.
  - vm_compute. lia.
Defined.










